(** * zapdriver: the decorating core (core.go)

    A shallow embedding of [core.go]: the typed-field normaliser
    [ToInterface], the field classifier [extractLabels], the label union
    [allLabels], the three enrichment rules and the [With]/[Write] methods of
    the decorating core, followed by the properties the specification states
    about them.

    Conventions.
    - Go's [int64], [int8], ... are [Z] with the wrap-around of each
      conversion written out.
    - A Go [map[string]T] is a [gmap string T].
    - A [*labels] is a pointer into an explicit heap of label stores, so that
      the sharing of [permLabels] between scopes is visible.
    - A run-time panic (a failed type assertion, a nil dereference) is [None].
    - Mutexes are not modelled: the embedding is sequential. *)

From Stdlib Require Import ZArith String Ascii List Lia Bool.
From stdpp Require Import base option gmap strings list fin_maps.

Local Open Scope Z_scope.

(** ** Machine integers *)

(** [uintN(x)]: the low [w] bits of [x]. *)
Definition to_unsigned (w : Z) (x : Z) : Z := x mod 2 ^ w.

(** [intN(x)]: the low [w] bits of [x], read in two's complement. *)
Definition to_signed (w : Z) (x : Z) : Z :=
  (x + 2 ^ (w - 1)) mod 2 ^ w - 2 ^ (w - 1).

(** ** Strings *)

Fixpoint string_drop (n : nat) (s : string) : string :=
  match n, s with
  | O, _ => s
  | S n', String _ s' => string_drop n' s'
  | S _, EmptyString => EmptyString
  end.

(** [strings.HasPrefix(s, prefix)]. *)
Definition HasPrefix (s prefix : string) : bool := String.prefix prefix s.

(** [strings.Replace(s, old, new, 1)]: the leftmost occurrence of [old] in
    [s] is replaced by [new]; [s] is returned as it is when [old] does not
    occur.  (An empty [old] matches at the start of [s].) *)
Fixpoint Replace1 (s old new : string) : string :=
  if String.prefix old s then new +:+ string_drop (String.length old) s
  else match s with
       | EmptyString => EmptyString
       | String c s' => String c (Replace1 s' old new)
       end.

(** ** The [time] package: just enough of it *)

(** The target of a [*time.Location]. *)
Inductive Location :=
| LocUTC
| LocLocal
| LocNamed (name : string).

(** A [time.Time]: an instant (nanoseconds since the Unix epoch) and the
    location it is presented in. *)
Record time_Time := mkTime { unixNano : Z; location : Location }.

(** [time.Unix(0, nsec)]: "Unix returns the local Time corresponding to the
    given Unix time". *)
Definition time_Unix0 (nsec : Z) : time_Time :=
  {| unixNano := nsec; location := LocLocal |}.

(** [t.In(loc)]: same instant, location set to [loc]; panics when [loc] is
    a nil pointer. *)
Definition time_In (t : time_Time) (loc : option Location) : option time_Time :=
  match loc with
  | Some l => Some {| unixNano := unixNano t; location := l |}
  | None => None
  end.

(** ** Dynamic values: Go's [interface{}] *)

(** What an [ObjectMarshaler] held by this package's fields carries. *)
Inductive ObjectVal :=
| LabelsObj (store : gmap string string)
| SourceObj (pc : Z) (file : string) (line : Z) (ok : bool)
| ServiceContextObj (name : string)
| ReportContextObj (pc : Z) (file : string) (line : Z) (ok : bool)
| OtherObj (id : nat).

(** A value of type [interface{}], by dynamic type.  [OtherV] stands for any
    dynamic type the code never asserts to. *)
Inductive any :=
| NilV
| BoolV (b : bool)
| Int8V (z : Z) | Int16V (z : Z) | Int32V (z : Z) | Int64V (z : Z)
| Uint8V (z : Z) | Uint16V (z : Z) | Uint32V (z : Z) | Uint64V (z : Z)
| UintptrV (z : Z)
| Float32V (bits : Z) | Float64V (bits : Z)
| Complex64V (re im : Z) | Complex128V (re im : Z)
| StringV (s : string)
| BytesV (b : list Z)
| DurationV (ns : Z)
| TimeV (t : time_Time)
| LocationV (l : option Location)
| ArrayMarshalerV (id : nat)
| ObjectMarshalerV (o : ObjectVal)
| OtherV (id : nat).

(** Single-result type assertions [x.(T)]: the value when its dynamic type is
    [T] (or implements the interface [T]), a panic otherwise. *)
Definition assert_ArrayMarshaler (x : any) : option any :=
  match x with ArrayMarshalerV _ => Some x | _ => None end.
Definition assert_ObjectMarshaler (x : any) : option any :=
  match x with ObjectMarshalerV _ => Some x | _ => None end.
Definition assert_bytes (x : any) : option any :=
  match x with BytesV _ => Some x | _ => None end.
Definition assert_complex128 (x : any) : option any :=
  match x with Complex128V _ _ => Some x | _ => None end.
Definition assert_complex64 (x : any) : option any :=
  match x with Complex64V _ _ => Some x | _ => None end.
Definition assert_Location (x : any) : option (option Location) :=
  match x with LocationV l => Some l | _ => None end.

(** ** zapcore: fields, levels, entries *)

(** [zapcore.FieldType].  The constructors are the tags [ToInterface] names;
    [OtherType code] is every other value of the underlying [uint8]. *)
Inductive FieldType :=
| ArrayMarshalerType | ObjectMarshalerType | BinaryType | BoolType
| ByteStringType | Complex128Type | Complex64Type | DurationType
| Float64Type | Float32Type | Int64Type | Int32Type | Int16Type | Int8Type
| StringType | TimeType | Uint64Type | Uint32Type | Uint16Type | Uint8Type
| UintptrType | ReflectType | NamespaceType | StringerType | ErrorType
| SkipType
| OtherType (code : N).

(** [zapcore.Field]. *)
Record Field := mkField {
  Key : string;
  Type_ : FieldType;
  Integer : Z;
  String_ : string;
  Interface : any
}.

(** [zapcore.Level] is an [int8]. *)
Definition DebugLevel : Z := -1.
Definition InfoLevel : Z := 0.
Definition WarnLevel : Z := 1.
Definition ErrorLevel : Z := 2.
Definition DPanicLevel : Z := 3.
Definition PanicLevel : Z := 4.
Definition FatalLevel : Z := 5.

(** [l.Enabled(lvl)]: [lvl >= l]. *)
Definition Level_Enabled (l lvl : Z) : bool := l <=? lvl.

(** [zapcore.EntryCaller] and [zapcore.Entry]. *)
Record EntryCaller := mkCaller {
  Defined : bool;
  PC : Z;
  File : string;
  Line : Z;
  Function : string
}.

Record Entry := mkEntry {
  Level : Z;
  Time_ : time_Time;
  LoggerName : string;
  Message : string;
  Caller : EntryCaller;
  Stack : string
}.

(** ** cloud logging: severities and entries *)

Definition logging_Default : Z := 0.
Definition logging_Debug : Z := 100.
Definition logging_Info : Z := 200.
Definition logging_Warning : Z := 400.
Definition logging_Error : Z := 500.
Definition logging_Critical : Z := 600.
Definition logging_Alert : Z := 700.
Definition logging_Emergency : Z := 800.

Record LogEntrySourceLocation := mkSrcLoc { sl_File : string; sl_Line : Z }.

(** [logging.Entry]; the fields [Write] leaves nil are [option unit]. *)
Record logging_Entry := mkLogEntry {
  Timestamp : time_Time;
  Severity : Z;
  Payload : gmap string any;
  Labels : gmap string string;
  InsertID : string;
  HTTPRequest : option unit;
  Operation : option unit;
  LogName : string;
  Resource : option unit;
  Trace : string;
  SpanID : string;
  TraceSampled : bool;
  SourceLocation_ : LogEntrySourceLocation
}.

(** ** core.go *)

Record driverConfig := mkConfig {
  ReportAllErrors : bool;
  ServiceName : string
}.

(** [var logLevelSeverityGoogle]. *)
Definition logLevelSeverityGoogle : gmap Z Z :=
  list_to_map
    [ (DebugLevel, logging_Debug);
      (InfoLevel, logging_Info);
      (WarnLevel, logging_Warning);
      (ErrorLevel, logging_Error);
      (DPanicLevel, logging_Critical);
      (PanicLevel, logging_Alert);
      (FatalLevel, logging_Emergency) ].

(** Indexing a Go map: the zero value for an absent key. *)
Definition severityOf (lvl : Z) : Z :=
  default logging_Default (logLevelSeverityGoogle !! lvl).

(** [fmt]'s [%v] rendering of a field, left abstract. *)
Class Formatter := fmt_v : Field → string.

Section Normalizer.
Context `{Formatter}.

(** [fmt.Sprintf("unknown field type: %v", f)]. *)
Definition Sprintf_unknown (f : Field) : string :=
  "unknown field type: " +:+ fmt_v f.

(** [func ToInterface(f zapcore.Field) interface{}]; [None] is a panic.
    A float is carried as its bit pattern; [uintptr] is taken to be 64 bits
    wide. *)
Definition ToInterface (f : Field) : option any :=
  match Type_ f with
  | ArrayMarshalerType => assert_ArrayMarshaler (Interface f)
  | ObjectMarshalerType => assert_ObjectMarshaler (Interface f)
  | BinaryType => assert_bytes (Interface f)
  | BoolType => Some (BoolV (Integer f =? 1))
  | ByteStringType => assert_bytes (Interface f)
  | Complex128Type => assert_complex128 (Interface f)
  | Complex64Type => assert_complex64 (Interface f)
  | DurationType => Some (DurationV (Integer f))
  | Float64Type => Some (Float64V (to_unsigned 64 (Integer f)))
  | Float32Type => Some (Float32V (to_unsigned 32 (Integer f)))
  | Int64Type => Some (Int64V (Integer f))
  | Int32Type => Some (Int32V (to_signed 32 (Integer f)))
  | Int16Type => Some (Int16V (to_signed 16 (Integer f)))
  | Int8Type => Some (Int8V (to_signed 8 (Integer f)))
  | StringType => Some (StringV (String_ f))
  | TimeType =>
      match Interface f with
      | NilV => Some (TimeV (time_Unix0 (Integer f)))
      | i => loc ← assert_Location i;
             t ← time_In (time_Unix0 (Integer f)) loc;
             Some (TimeV t)
      end
  | Uint64Type => Some (Uint64V (to_unsigned 64 (Integer f)))
  | Uint32Type => Some (Uint32V (to_unsigned 32 (Integer f)))
  | Uint16Type => Some (Uint16V (to_unsigned 16 (Integer f)))
  | Uint8Type => Some (Uint8V (to_unsigned 8 (Integer f)))
  | UintptrType => Some (UintptrV (to_unsigned 64 (Integer f)))
  | ReflectType => Some (Interface f)
  | NamespaceType => Some NilV
  | StringerType => Some (Interface f)
  | ErrorType => Some (Interface f)
  | SkipType => Some NilV
  | OtherType _ => Some (StringV (Sprintf_unknown f))
  end.
End Normalizer.

(** ** Label stores *)

(** The [store] of a [labels] object.  A [*labels] that lives across calls
    ([permLabels], [tempLabels]) is a pointer into the heap of the [world]
    below; one that is created and dropped inside a single call (the results
    of [extractLabels] and [allLabels]) is carried by value. *)
Abbreviation labelStore := (gmap string string).

(** Modelled from the spec: [newLabels] (labels.go is not under src/), the
    constructor of a Label Store; "initial state is always ... empty". *)
Definition newLabels : labelStore := ∅.

(** Modelled from the spec: the [reset] method of [labels] (labels.go is not under src/):
    "[reset()] -> clear all entries". *)
Definition reset (l : labelStore) : labelStore := ∅.

(** The tag is [zapcore.StringType]. *)
Definition isStringType (t : FieldType) : bool :=
  match t with StringType => true | _ => false end.

(** Modelled from the spec: [isLabelField] (labels.go is not under src/): a
    label is "a caller-supplied key/value string pair" whose key is under
    the label-namespace prefix, so a label field is a string field whose key
    starts with the prefix; the spec sets a label-prefixed field of another
    type apart (4.2, 7), and such a field is no label field.  The prefix is
    the literal that [extractLabels] strips. *)
Definition isLabelField (f : Field) : bool :=
  HasPrefix (Key f) "labels." && isStringType (Type_ f).

(** [for k, v := range src { dst[k] = v }]. *)
Definition copyInto (src dst : labelStore) : labelStore :=
  map_fold (λ k v acc, <[k := v]> acc) dst src.

(** ** Reserved keys and the fields built for them *)

(** The constants [labelsKey], [sourceKey], [serviceContextKey] and
    [contextKey] are declared outside core.go; their values are left open. *)
Class ReservedKeys := mkKeys {
  labelsKey : string;
  sourceKey : string;
  serviceContextKey : string;
  contextKey : string
}.

Section Decorator.
Context `{ReservedKeys}.

(** Modelled from the spec: [labelsField] (labels.go is not under src/): "one
    field carrying the full label union (namespaced)". *)
Definition labelsField (l : labelStore) : Field :=
  mkField labelsKey ObjectMarshalerType 0 "" (ObjectMarshalerV (LabelsObj l)).

(** Modelled from the spec: [SourceLocation] (source.go is not under src/):
    "a field encoding (file, line, program-counter, is-this-synthesized
    flag)" under the source-location key. *)
Definition SourceLocation (pc : Z) (file : string) (line : Z) (ok : bool) : Field :=
  mkField sourceKey ObjectMarshalerType 0 ""
    (ObjectMarshalerV (SourceObj pc file line ok)).

(** Modelled from the spec: [ServiceContext] (service.go is not under src/):
    "a field encoding that name" under the service-context key. *)
Definition ServiceContext (name : string) : Field :=
  mkField serviceContextKey ObjectMarshalerType 0 ""
    (ObjectMarshalerV (ServiceContextObj name)).

(** Modelled from the spec: [ErrorReport] (report.go is not under src/): "a
    field encoding the caller location as an error report" under the
    error-report key. *)
Definition ErrorReport (pc : Z) (file : string) (line : Z) (ok : bool) : Field :=
  mkField contextKey ObjectMarshalerType 0 ""
    (ObjectMarshalerV (ReportContextObj pc file line ok)).

(** [for i := range fields { if fields[i].Key == k { return fields } }]: the
    guard loop the three rules open with; [true] when the loop returns. *)
Fixpoint hasKey (k : string) (fields : list Field) : bool :=
  match fields with
  | [] => false
  | f :: rest => if String.eqb (Key f) k then true else hasKey k rest
  end.

(** [func (c *core) withSourceLocation]. *)
Definition withSourceLocation (ent : Entry) (fields : list Field) : list Field :=
  if hasKey sourceKey fields then fields
  else if negb (Defined (Caller ent)) then fields
  else fields ++ [SourceLocation (PC (Caller ent)) (File (Caller ent))
                                 (Line (Caller ent)) true].

(** [func (c *core) withServiceContext]. *)
Definition withServiceContext (name : string) (fields : list Field) : list Field :=
  if hasKey serviceContextKey fields then fields
  else fields ++ [ServiceContext name].

(** [func (c *core) withErrorReport]. *)
Definition withErrorReport (ent : Entry) (fields : list Field) : list Field :=
  if hasKey contextKey fields then fields
  else if negb (Defined (Caller ent)) then fields
  else fields ++ [ErrorReport (PC (Caller ent)) (File (Caller ent))
                              (Line (Caller ent)) true].

(** Lines 248-250 of [Write]: the source-location and service-context
    rules. *)
Definition decorate_upto_service (cfg : driverConfig) (ent : Entry)
    (fields : list Field) : list Field :=
  let fields := withSourceLocation ent fields in
  if negb (String.eqb (ServiceName cfg) "")
  then withServiceContext (ServiceName cfg) fields
  else fields.

(** Lines 252-259 of [Write]: the error-report rule and its fallback service
    context. *)
Definition decorate_errors (cfg : driverConfig) (ent : Entry)
    (fields : list Field) : list Field :=
  if ReportAllErrors cfg && Level_Enabled ErrorLevel (Level ent) then
    let fields := withErrorReport ent fields in
    if String.eqb (ServiceName cfg) ""
    then withServiceContext "unknown" fields
    else fields
  else fields.

(** Lines 248-259 of [Write]: the three enrichment rules, in the order
    [Write] runs them. *)
Definition decorate (cfg : driverConfig) (ent : Entry)
    (fields : list Field) : list Field :=
  decorate_errors cfg ent (decorate_upto_service cfg ent fields).

End Decorator.

(** ** The field classifier *)

(** One iteration of the loop of [extractLabels]. *)
Definition extractLabels_step (acc : labelStore * list Field) (f : Field)
    : labelStore * list Field :=
  let '(lbls, out) := acc in
  if negb (isLabelField f) then (lbls, out ++ [f])
  else (<[Replace1 (Key f) "labels." "" := String_ f]> lbls, out).

(** [func (c *core) extractLabels]; the receiver is not used. *)
Definition extractLabels (fields : list Field) : labelStore * list Field :=
  fold_left extractLabels_step fields (newLabels, []).

Section WithLabels.
Context `{ReservedKeys}.

(** One iteration of the loop of [withLabels]. *)
Definition withLabels_step (acc : labelStore * list Field) (f : Field)
    : labelStore * list Field :=
  let '(lbls, out) := acc in
  if isLabelField f
  then (<[Replace1 (Key f) "labels." "" := String_ f]> lbls, out)
  else (lbls, out ++ [f]).

(** [func (c *core) withLabels]; the receiver is not used. *)
Definition withLabels (fields : list Field) : list Field :=
  let '(lbls, out) := fold_left withLabels_step fields (newLabels, []) in
  out ++ [labelsField lbls].

End WithLabels.

(** ** The collaborators *)

(** The wrapped [zapcore.Core]: the operations [core.go] calls on it.  [S] is
    whatever state the sink keeps; an [error] is its message, [None] is
    [nil]. *)
Class ZapCore (C S : Type) := mkZapCore {
  core_With : C → list Field → C;
  core_Write : C → Entry → list Field → S → option string * S;
  core_Sync : C → S → option string * S
}.

(** The remote [*logging.Logger]: [Log] returns nothing; whatever happens to
    the entry (queued, sent, failed) stays inside the client's state [L]. *)
Class RemoteClient (L : Type) := mkRemote {
  lg_Log : L → logging_Entry → L;
  lg_Flush : L → option string * L
}.

(** Everything a call can read or change besides its arguments. *)
Record world (L S : Type) := mkWorld {
  heap : gmap nat labelStore;
  loggers : nat → L;
  sink : S
}.
Arguments mkWorld {L S}.
Arguments heap {L S}.
Arguments loggers {L S}.
Arguments sink {L S}.

(** [type core struct]; [lg] may be nil, the two label pointers are set by
    every constructor. *)
Record core (C : Type) := mkCore {
  Core : C;
  fields : list Field;
  lg : option nat;
  permLabels : nat;
  tempLabels : nat;
  config : driverConfig
}.
Arguments mkCore {C}.
Arguments Core {C}.
Arguments fields {C}.
Arguments lg {C}.
Arguments permLabels {C}.
Arguments tempLabels {C}.
Arguments config {C}.

Section Core.
Context `{ReservedKeys} `{Formatter}.
Context {C L S : Type} `{ZapCore C S} `{RemoteClient L}.

(** The option [ReportAllErrors(report)]: sets [c.config.ReportAllErrors]. *)
Definition ReportAllErrorsOption (report : bool) (c : core C) : core C :=
  mkCore (Core c) (fields c) (lg c) (permLabels c) (tempLabels c)
         (mkConfig report (ServiceName (config c))).

(** The option [ServiceName(name)]: sets [c.config.ServiceName]. *)
Definition ServiceNameOption (name : string) (c : core C) : core C :=
  mkCore (Core c) (fields c) (lg c) (permLabels c) (tempLabels c)
         (mkConfig (ReportAllErrors (config c)) name).

(** The option [WithLogger(logger)]: sets [c.lg]. *)
Definition WithLogger (logger : option nat) (c : core C) : core C :=
  mkCore (Core c) (fields c) logger (permLabels c) (tempLabels c) (config c).

(** The options this package offers. *)
Inductive coreOption : (core C → core C) → Prop :=
| opt_ReportAllErrors report : coreOption (ReportAllErrorsOption report)
| opt_ServiceName name : coreOption (ServiceNameOption name)
| opt_WithLogger logger : coreOption (WithLogger logger).

(** The function [WrapCore] hands to [zap.WrapCore]: two fresh label stores,
    then the options in order. *)
Definition WrapCore (options : list (core C → core C)) (c : C)
    (w : world L S) : core C * world L S :=
  let p := fresh (dom (heap w)) in
  let h1 := <[p := newLabels]> (heap w) in
  let t := fresh (dom h1) in
  let h2 := <[t := newLabels]> h1 in
  let newcore := mkCore c [] None p t (mkConfig false "") in
  (fold_left (λ nc option, option nc) options newcore,
   mkWorld h2 (loggers w) (sink w)).

(** [func (c *core) With]. *)
Definition With (c : core C) (fs : list Field) (w : world L S)
    : option (core C * world L S) :=
  let '(lbls, fs) := extractLabels fs in
  perm ← heap w !! permLabels c;
  let h1 := <[permLabels c := copyInto lbls perm]> (heap w) in
  let t := fresh (dom h1) in
  let h2 := <[t := newLabels]> h1 in
  Some (mkCore (core_With (Core c) fs) (fields c ++ fs) (lg c)
               (permLabels c) t (config c),
        mkWorld h2 (loggers w) (sink w)).

(** The state of one logger replaced. *)
Definition set_logger (l : nat) (x : L) (ls : nat → L) : nat → L :=
  λ p, if Nat.eqb p l then x else ls p.

(** [func (c *core) allLabels]. *)
Definition allLabels (c : core C) (h : gmap nat labelStore) : option labelStore :=
  let lbls := newLabels in
  perm ← h !! permLabels c;
  let lbls := copyInto perm lbls in
  temp ← h !! tempLabels c;
  let lbls := copyInto temp lbls in
  Some lbls.

(** [for _, f := range c.fields { payload[f.Key] = ToInterface(f) }]. *)
Fixpoint fillPayload (fs : list Field) (payload : gmap string any)
    : option (gmap string any) :=
  match fs with
  | [] => Some payload
  | f :: rest => v ← ToInterface f; fillPayload rest (<[Key f := v]> payload)
  end.

(** The [logging.Entry] literal of [Write]. *)
Definition mkGlog (ent : Entry) (payload : gmap string any)
    (labels : labelStore) : logging_Entry :=
  {| Timestamp := Time_ ent;
     Severity := severityOf (Level ent);
     Payload := payload;
     Labels := labels;
     InsertID := "";
     HTTPRequest := None;
     Operation := None;
     LogName := "";
     Resource := None;
     Trace := "";
     SpanID := "";
     TraceSampled := false;
     SourceLocation_ := {| sl_File := File (Caller ent);
                           sl_Line := Line (Caller ent) |} |}.

(** [func (c *core) Write]: the returned error and the world afterwards, or
    [None] when the call panics. *)
Definition Write (c : core C) (ent : Entry) (fs : list Field)
    (w : world L S) : option (option string * world L S) :=
  let '(lbls, fs) := extractLabels fs in
  temp ← heap w !! tempLabels c;
  let h1 := <[tempLabels c := copyInto lbls temp]> (heap w) in
  payload ← fillPayload (fields c) ∅;
  let payload := <["message" := StringV (Message ent)]> payload in
  dispatched ← allLabels c h1;
  let glog := mkGlog ent payload dispatched in
  l ← lg c;
  let loggers1 := set_logger l (lg_Log (loggers w l) glog) (loggers w) in
  all ← allLabels c h1;
  let fs := fs ++ [labelsField all] in
  let fs := decorate (config c) ent fs in
  temp1 ← h1 !! tempLabels c;
  let h2 := <[tempLabels c := reset temp1]> h1 in
  let '(err, s1) := core_Write (Core c) ent fs (sink w) in
  Some (err, mkWorld h2 loggers1 s1).

(** [func (c *core) Sync]. *)
Definition Sync (c : core C) (w : world L S) : option (option string * world L S) :=
  l ← lg c;
  let '(_, l1) := lg_Flush (loggers w l) in
  let '(err, s1) := core_Sync (Core c) (sink w) in
  Some (err, mkWorld (heap w) (set_logger l l1 (loggers w)) s1).

End Core.

(** ** Vocabulary of the properties *)

(** The label key a label field is stored under: its key without the seven
    characters of the prefix. *)
Definition labelName (f : Field) : string := string_drop 7 (Key f).

(** What the loop of [extractLabels] does to the label store for one label
    field. *)
Definition storeLabel (m : labelStore) (f : Field) : labelStore :=
  <[labelName f := String_ f]> m.

(** The [Interface] slot holds what the tag's conversion asserts: the
    conversions of [ToInterface] that assert a dynamic type find it. *)
Definition slot_ok (f : Field) : bool :=
  match Type_ f, Interface f with
  | ArrayMarshalerType, ArrayMarshalerV _ => true
  | ArrayMarshalerType, _ => false
  | ObjectMarshalerType, ObjectMarshalerV _ => true
  | ObjectMarshalerType, _ => false
  | (BinaryType | ByteStringType), BytesV _ => true
  | (BinaryType | ByteStringType), _ => false
  | Complex128Type, Complex128V _ _ => true
  | Complex128Type, _ => false
  | Complex64Type, Complex64V _ _ => true
  | Complex64Type, _ => false
  | TimeType, (NilV | LocationV (Some _)) => true
  | TimeType, _ => false
  | _, _ => true
  end.

(** [z] is [n] narrowed to a signed (unsigned) integer of [w] bits: in
    range, equal to [n] modulo [2 ^ w], and [n] itself when [n] fits. *)
Definition narrows_signed (w n z : Z) : Prop :=
  - 2 ^ (w - 1) ≤ z < 2 ^ (w - 1)
  ∧ (z - n) mod 2 ^ w = 0
  ∧ (- 2 ^ (w - 1) ≤ n < 2 ^ (w - 1) → z = n).
Definition narrows_unsigned (w n z : Z) : Prop :=
  0 ≤ z < 2 ^ w
  ∧ (z - n) mod 2 ^ w = 0
  ∧ (0 ≤ n < 2 ^ w → z = n).

(** The three reserved keys of the enrichment rules. *)
Definition metadataKey `{ReservedKeys} (k : string) : Prop :=
  k = sourceKey ∨ k = serviceContextKey ∨ k = contextKey.

(** How many fields of a field set use the key [k]. *)
Definition keyCount (k : string) (fields : list Field) : nat :=
  length (List.filter (λ f, String.eqb (Key f) k) fields).

(** [fs'] is [fs] followed by fields whose keys are new: none is a key of
    [fs], no two are the same. *)
Definition adds_new_keys (fs fs' : list Field) : Prop :=
  ∃ app, fs' = fs ++ app
         ∧ (∀ k, hasKey k fs = true → keyCount k app = 0%nat)
         ∧ (∀ k, (keyCount k app ≤ 1)%nat).

(** The stores a core points to exist and are two different objects: what
    [WrapCore] and [With] establish for every core they build. *)
Definition core_wf {C L S} (c : core C) (w : world L S) : Prop :=
  permLabels c ≠ tempLabels c
  ∧ is_Some (heap w !! permLabels c)
  ∧ is_Some (heap w !! tempLabels c).

(** ** A concrete setting for the examples *)

Module Sample.

(** One choice of reserved keys. *)
Definition keys : ReservedKeys :=
  mkKeys "logging.googleapis.com/labels" "logging.googleapis.com/sourceLocation"
         "serviceContext" "context".

(** A formatter that prints the key only. *)
Definition formatter : Formatter := λ f, Key f.

(** A sink that records what it is asked to write and fails on the message
    [boom]. *)
Definition zapCore : ZapCore (list Field) (list (Entry * list Field)) :=
  mkZapCore (list Field) (list (Entry * list Field))
    (λ c fs, c ++ fs)
    (λ c ent fs s,
       (if String.eqb (Message ent) "boom" then Some "sink failed" else None,
        s ++ [(ent, c ++ fs)]))
    (λ c s, (None, s)).

(** A remote client that queues every entry. *)
Definition queueing : RemoteClient (list logging_Entry) :=
  mkRemote (list logging_Entry) (λ q e, q ++ [e]) (λ q, (None, q)).

(** A remote client that drops every entry and counts them. *)
Definition dropping : RemoteClient nat :=
  mkRemote nat (λ n _, S n) (λ n, (Some "flush failed", n)).

Definition str (key value : string) : Field :=
  mkField key StringType 0 value NilV.
Definition int (key : string) (n : Z) : Field :=
  mkField key Int64Type n "" NilV.

Definition epoch : time_Time := mkTime 0 LocUTC.

Definition caller : EntryCaller := mkCaller true 4096 "main.go" 42 "main.main".

Definition entry (level : Z) (msg : string) : Entry :=
  mkEntry level epoch "" msg caller "".

(** The scope of the specification's scenario: created with
    [labels.env = prod] and [user = x]; store 0 is permanent, store 1
    temporary, logger 0 is the remote client. *)
Definition scope (cfg : driverConfig) : core (list Field) :=
  mkCore [str "user" "x"] [str "user" "x"] (Some 0%nat) 0%nat 1%nat cfg.

Definition start {L} (l : L) : world L (list (Entry * list Field)) :=
  mkWorld {[ 0%nat := {[ "env" := "prod" ]}; 1%nat := ∅ ]} (λ _, l) [].

Definition request : list Field :=
  [str "labels.request_id" "42"; int "status" 200].

(** [Write] in this setting, towards the queueing and towards the dropping
    remote client. *)
Definition write :=
  @Write keys formatter (list Field) (list logging_Entry)
         (list (Entry * list Field)) zapCore queueing.
Definition write_dropping :=
  @Write keys formatter (list Field) nat
         (list (Entry * list Field)) zapCore dropping.

(** [With], [Sync] and [WrapCore] in this setting. *)
Definition with_ :=
  @With (list Field) (list logging_Entry) (list (Entry * list Field)) zapCore.
Definition sync :=
  @Sync (list Field) (list logging_Entry) (list (Entry * list Field))
        zapCore queueing.
Definition sync_dropping :=
  @Sync (list Field) nat (list (Entry * list Field)) zapCore dropping.
Definition wrapCore :=
  @WrapCore (list Field) (list logging_Entry) (list (Entry * list Field)).


(** Fields for a nested scope: one label, one ordinary field. *)
Definition nested : list Field := [str "labels.team" "core"; int "shard" 7].

(** A write whose label collides with the permanent label [env]. *)
Definition override : list Field :=
  [str "labels.env" "staging"; int "status" 200].


(** Options as a program would pass them to [WrapCore]. *)
Definition options : list (core (list Field) → core (list Field)) :=
  [WithLogger (Some 0%nat); ReportAllErrorsOption true; ServiceNameOption "api"].

End Sample.

(** * Properties *)

(** ** Strings *)

Lemma prefix_split (p s : string) :
  String.prefix p s = true → s = p +:+ string_drop (String.length p) s.
Proof.
  revert s. induction p as [|a p IH]; intros s Hp.
  - reflexivity.
  - destruct s as [|b s]; simpl in Hp; [discriminate|].
    destruct (ascii_dec a b) as [->|]; [|discriminate].
    change (String b s = String b (p +:+ string_drop (String.length p) s)).
    f_equal. by apply IH.
Qed.

Lemma Replace1_prefix (s old new : string) :
  String.prefix old s = true →
  Replace1 s old new = new +:+ string_drop (String.length old) s.
Proof. intros Hp. destruct s; cbn [Replace1]; by rewrite Hp. Qed.

Lemma isLabelField_key (f : Field) :
  isLabelField f = true →
  Replace1 (Key f) "labels." "" = labelName f
  ∧ Key f = "labels." +:+ labelName f.
Proof.
  unfold isLabelField, HasPrefix, labelName. intros Hp.
  apply andb_true_iff in Hp as [Hp _]. split.
  - by rewrite Replace1_prefix.
  - by apply (prefix_split "labels.").
Qed.

Lemma labelName_inj (f g : Field) :
  isLabelField f = true → isLabelField g = true →
  labelName f = labelName g → Key f = Key g.
Proof.
  intros Hf Hg Heq.
  destruct (isLabelField_key f Hf) as [_ ->].
  destruct (isLabelField_key g Hg) as [_ ->].
  by rewrite Heq.
Qed.

Example Replace1_strips_prefix :
  Replace1 "labels.env" "labels." "" = "env"
  ∧ Replace1 "labels.a.labels.b" "labels." "" = "a.labels.b"
  ∧ Replace1 "user" "labels." "" = "user".
Proof. repeat split. Qed.

(** ** Machine integers and the severity table *)

Example conversions_wrap :
  to_signed 8 200 = -56 ∧ to_signed 32 (2 ^ 31) = - 2 ^ 31
  ∧ to_unsigned 8 (-1) = 255 ∧ to_unsigned 32 (2 ^ 32 + 7) = 7.
Proof. repeat split. Qed.

Example severities :
  severityOf ErrorLevel = logging_Error
  ∧ severityOf DPanicLevel = logging_Critical
  ∧ severityOf 17 = logging_Default.
Proof. repeat split. Qed.

(** ** The value normaliser *)

Section NormalizerFacts.
Context `{Formatter}.

(** C7 (as amended): a boolean-tagged field normalises to the boolean
    [Integer == 1]: true exactly when the integer slot is 1, false for every
    other value; on the two encodings 0 and 1 this is the non-zero test. *)
Theorem ToInterface_bool (key : string) (n : Z) (s : string) (i : any) :
  ToInterface (mkField key BoolType n s i) = Some (BoolV (n =? 1))
  ∧ ((n =? 1) = true ↔ n = 1)
  ∧ (n = 0 ∨ n = 1 → (n =? 1) = negb (n =? 0)).
Proof.
  split; [reflexivity|]. split.
  - apply Z.eqb_eq.
  - intros [-> | ->]; reflexivity.
Qed.

Lemma ToInterface_is_Some (f : Field) :
  is_Some (ToInterface f) ↔ slot_ok f = true.
Proof.
  destruct f as [k t n s i]. unfold ToInterface, slot_ok. simpl.
  destruct t; simpl;
    try (split; [reflexivity | intros _; eexists; reflexivity]);
    destruct i as [| | | | | | | | | | | | | | | | | | | [l|] | | | ]; simpl;
    try (split; [reflexivity | intros _; eexists; reflexivity]);
    (split; [intros [? ?]; discriminate | discriminate]).
Qed.

(** C8 (as amended): [ToInterface] returns a value exactly for the fields
    whose [Interface] slot holds what their tag's type assertion expects (no
    condition for the tags that assert nothing), and panics for the others;
    a tag outside the switch gives the non-empty string
    [unknown field type: ] followed by the rendering of the field. *)
Theorem ToInterface_total_on_typed_slots (f : Field) :
  (is_Some (ToInterface f) ↔ slot_ok f = true)
  ∧ (∀ code, Type_ f = OtherType code →
       ToInterface f = Some (StringV ("unknown field type: " +:+ fmt_v f))
       ∧ (20 ≤ String.length ("unknown field type: " +:+ fmt_v f))%nat).
Proof.
  split; [apply ToInterface_is_Some|].
  intros code Ht. unfold ToInterface. rewrite Ht. split; [reflexivity|].
  unfold Sprintf_unknown. simpl. lia.
Qed.

(** C9 (what the code does): a timestamp-tagged field normalises to the
    instant of its integer slot; a location in the [Interface] slot is
    applied, and with a nil slot the result is [time.Unix(0, n)] as it is,
    which is in the local zone. *)
Theorem ToInterface_time (key : string) (n : Z) (s : string) :
  ToInterface (mkField key TimeType n s NilV) = Some (TimeV (mkTime n LocLocal))
  ∧ ∀ l, ToInterface (mkField key TimeType n s (LocationV (Some l)))
         = Some (TimeV (mkTime n l)).
Proof. split; [reflexivity | intros l; reflexivity]. Qed.

End NormalizerFacts.

(** C7 (as stated) fails: the integer slot 2 is non-zero and the result is
    false. *)
Lemma ToInterface_bool_nonzero_false :
  @ToInterface Sample.formatter (mkField "ok" BoolType 2 "" NilV)
    = Some (BoolV false)
  ∧ (2 =? 0) = false.
Proof. split; reflexivity. Qed.

(** C8 (as stated) fails: an array-tagged field with a nil [Interface] slot
    (what [zap.Array(key, nil)] builds) makes the type assertion panic. *)
Lemma ToInterface_panics_on_nil_array :
  @ToInterface Sample.formatter (mkField "xs" ArrayMarshalerType 0 "" NilV)
    = None.
Proof. reflexivity. Qed.

(** ** The field classifier *)

Section ClassifierFacts.

Lemma extractLabels_step_fold (fs : list Field) (m : labelStore) (out : list Field) :
  fold_left extractLabels_step fs (m, out)
  = (fold_left storeLabel (List.filter isLabelField fs) m,
     out ++ List.filter (λ f, negb (isLabelField f)) fs).
Proof.
  revert m out. induction fs as [|f fs IH]; intros m out; simpl.
  - by rewrite app_nil_r.
  - destruct (isLabelField f) eqn:Hf; simpl; rewrite IH.
    + destruct (isLabelField_key f Hf) as [-> _]. reflexivity.
    + by rewrite <- app_assoc.
Qed.

Lemma extractLabels_unfold (fs : list Field) :
  extractLabels fs
  = (fold_left storeLabel (List.filter isLabelField fs) ∅,
     List.filter (λ f, negb (isLabelField f)) fs).
Proof. unfold extractLabels. by rewrite extractLabels_step_fold. Qed.

Lemma storeLabel_keeps (l : list Field) (m : labelStore) (k : string) :
  is_Some (m !! k) → is_Some (fold_left storeLabel l m !! k).
Proof.
  revert m. induction l as [|g l IH]; intros m Hm; simpl; [done|].
  apply IH. unfold storeLabel.
  destruct (decide (labelName g = k)) as [->|Hne].
  - rewrite lookup_insert_eq. by eexists.
  - by rewrite lookup_insert_ne.
Qed.

Lemma storeLabel_member (l : list Field) (m : labelStore) (f : Field) :
  In f l → is_Some (fold_left storeLabel l m !! labelName f).
Proof.
  revert m. induction l as [|g l IH]; intros m Hin; simpl; [destruct Hin|].
  destruct Hin as [->|Hin]; [|by apply IH].
  apply storeLabel_keeps. unfold storeLabel. rewrite lookup_insert_eq. by eexists.
Qed.

Lemma storeLabel_untouched (l : list Field) (m : labelStore) (k : string) :
  (∀ g, In g l → labelName g ≠ k) →
  fold_left storeLabel l m !! k = m !! k.
Proof.
  revert m. induction l as [|g l IH]; intros m Hno; simpl; [done|].
  rewrite IH; [|intros g' Hg'; apply Hno; by right].
  unfold storeLabel. apply lookup_insert_ne. apply Hno. by left.
Qed.

Lemma storeLabel_origin (l : list Field) (m : labelStore) (k v : string) :
  fold_left storeLabel l m !! k = Some v →
  m !! k = Some v ∨ ∃ f, In f l ∧ labelName f = k ∧ String_ f = v.
Proof.
  revert m. induction l as [|g l IH]; intros m Hk; simpl in *; [by left|].
  destruct (IH _ Hk) as [Hm | (f & Hin & Hn & Hv)].
  - unfold storeLabel in Hm.
    destruct (decide (labelName g = k)) as [Heq|Hne].
    + rewrite Heq, lookup_insert_eq in Hm. right. exists g.
      split; [by left|]. split; [done|]. congruence.
    + rewrite lookup_insert_ne in Hm by done. by left.
  - right. exists f. split; [by right|]. done.
Qed.

Lemma storeLabel_untouched_by_others (l : list Field) (m : labelStore)
    (f : Field) :
  isLabelField f = true →
  (∀ g, In g l → isLabelField g = true → Key g ≠ Key f) →
  fold_left storeLabel (List.filter isLabelField l) m !! labelName f
  = m !! labelName f.
Proof.
  intros Hf Hlast. apply storeLabel_untouched.
  intros g Hg Heq. apply filter_In in Hg as [Hg Hgl].
  apply (Hlast g Hg Hgl). by apply labelName_inj.
Qed.

(** C1 (as amended): [extractLabels] routes every field to exactly one
    side.  A label field is a field the label test accepts: its key begins
    with the prefix, and every string field whose key begins with the prefix
    is one.  The fields the test rejects, among them every field whose key
    does not begin with the prefix, are returned in their original order;
    every label field has its stripped key in the returned store and is not
    passed through, and the value under that key is the text of the last
    label field with that key (a label field followed by no label field of
    the same key is stored with its own text); the store holds nothing
    else. *)
Theorem extractLabels_partition (fs : list Field) :
  (extractLabels fs).2 = List.filter (λ f, negb (isLabelField f)) fs
  ∧ (∀ f, (isLabelField f = true → HasPrefix (Key f) "labels." = true)
          ∧ (HasPrefix (Key f) "labels." = true → Type_ f = StringType →
             isLabelField f = true))
  ∧ (∀ f, In f fs → isLabelField f = true →
       Replace1 (Key f) "labels." "" = labelName f
       ∧ is_Some ((extractLabels fs).1 !! labelName f)
       ∧ ¬ In f (extractLabels fs).2)
  ∧ (∀ f, In f fs → isLabelField f = false → In f (extractLabels fs).2)
  ∧ (∀ pre f post, fs = pre ++ f :: post → isLabelField f = true →
       (∀ g, In g post → isLabelField g = true → Key g ≠ Key f) →
       (extractLabels fs).1 !! labelName f = Some (String_ f))
  ∧ (∀ k v, (extractLabels fs).1 !! k = Some v →
       ∃ f, In f fs ∧ isLabelField f = true
            ∧ Key f = "labels." +:+ k ∧ String_ f = v).
Proof.
  rewrite extractLabels_unfold. simpl. split; [reflexivity|].
  split; [|split; [|split; [|split]]].
  - intros f. unfold isLabelField. split.
    + intros Hf. by apply andb_true_iff in Hf as [Hf _].
    + intros Hp Ht. by rewrite Hp, Ht.
  - intros f Hin Hf. split; [by apply isLabelField_key|]. split.
    + apply storeLabel_member. apply filter_In. by split.
    + rewrite filter_In. intros [_ Hneg]. by rewrite Hf in Hneg.
  - intros f Hin Hf. apply filter_In. split; [done|]. by rewrite Hf.
  - intros pre f post -> Hf Hlast.
    rewrite List.filter_app. simpl. rewrite Hf.
    rewrite fold_left_app. simpl.
    rewrite storeLabel_untouched_by_others by done.
    unfold storeLabel. apply lookup_insert_eq.
  - intros k v Hk. apply storeLabel_origin in Hk as [Hk | (f & Hin & Hn & Hv)].
    + by rewrite lookup_empty in Hk.
    + apply filter_In in Hin as [Hin Hf]. exists f.
      split; [done|]. split; [done|]. split; [|done].
      rewrite <- Hn. by apply isLabelField_key.
Qed.

End ClassifierFacts.

(** C1 (as stated) fails: of two label fields with the same key only the
    second one's text is in the returned store; the first is neither stored
    with its value nor passed through. *)
Lemma extractLabels_duplicate_key :
  let f1 := Sample.str "labels.a" "1" in
  let f2 := Sample.str "labels.a" "2" in
  isLabelField f1 = true
  ∧ (extractLabels [f1; f2]).1 !! Replace1 (Key f1) "labels." "" = Some "2"
  ∧ (extractLabels [f1; f2]).1 !! Replace1 (Key f1) "labels." "" ≠ Some (String_ f1)
  ∧ (extractLabels [f1; f2]).2 = [].
Proof. vm_compute. repeat split; congruence. Qed.

(** ** The enrichment rules *)

Section DecoratorFacts.
Context `{ReservedKeys}.

Lemma hasKey_app (k : string) (a b : list Field) :
  hasKey k (a ++ b) = hasKey k a || hasKey k b.
Proof.
  induction a as [|f a IH]; simpl; [done|].
  destruct (String.eqb (Key f) k); [done|]. apply IH.
Qed.

Lemma keyCount_app (k : string) (a b : list Field) :
  keyCount k (a ++ b) = (keyCount k a + keyCount k b)%nat.
Proof. unfold keyCount. by rewrite List.filter_app, length_app. Qed.

Lemma hasKey_false_keyCount (k : string) (fs : list Field) :
  hasKey k fs = false → keyCount k fs = 0%nat.
Proof.
  unfold keyCount. induction fs as [|f fs IH]; simpl; [done|].
  destruct (String.eqb (Key f) k); [discriminate|]. apply IH.
Qed.

Lemma adds_new_keys_refl (fs : list Field) : adds_new_keys fs fs.
Proof.
  exists []. rewrite app_nil_r. split; [done|]. split; [done|].
  intros k. unfold keyCount. simpl. lia.
Qed.

Lemma adds_new_keys_snoc (fs fs' : list Field) (x : Field) :
  adds_new_keys fs fs' → hasKey (Key x) fs' = false →
  adds_new_keys fs (fs' ++ [x]).
Proof.
  intros (app & -> & Hold & Hone) Hx.
  rewrite hasKey_app in Hx. apply orb_false_iff in Hx as [Hx1 Hx2].
  exists (app ++ [x]). split; [by rewrite app_assoc|].
  assert (∀ k, keyCount k (app ++ [x])
               = (keyCount k app + if String.eqb (Key x) k then 1 else 0)%nat)
    as Hcount.
  { intros k. rewrite keyCount_app. unfold keyCount at 2. simpl.
    by destruct (String.eqb (Key x) k). }
  split; intros k; [intros Hk|]; rewrite Hcount.
  - rewrite (Hold k Hk). destruct (String.eqb (Key x) k) eqn:Heq; [|done].
    apply String.eqb_eq in Heq. subst k. congruence.
  - destruct (String.eqb (Key x) k) eqn:Heq.
    + apply String.eqb_eq in Heq. subst k.
      rewrite (hasKey_false_keyCount _ _ Hx2). lia.
    + specialize (Hone k). lia.
Qed.

Lemma adds_new_keys_prefix (fs fs' : list Field) :
  adds_new_keys fs fs' → ∃ more, fs' = fs ++ more.
Proof. intros (app & -> & _). by exists app. Qed.

(** Each rule either leaves the field set alone or appends one field under
    its own key, and only when that key is not in use. *)
Lemma withSourceLocation_unfold (ent : Entry) (fs : list Field) :
  withSourceLocation ent fs
  = fs ++ (if negb (hasKey sourceKey fs) && Defined (Caller ent)
           then [SourceLocation (PC (Caller ent)) (File (Caller ent))
                                (Line (Caller ent)) true]
           else []).
Proof.
  unfold withSourceLocation.
  destruct (hasKey sourceKey fs), (Defined (Caller ent)); simpl;
    by rewrite ?app_nil_r.
Qed.

Lemma withServiceContext_unfold (name : string) (fs : list Field) :
  withServiceContext name fs
  = fs ++ (if negb (hasKey serviceContextKey fs)
           then [ServiceContext name] else []).
Proof.
  unfold withServiceContext.
  destruct (hasKey serviceContextKey fs); simpl; by rewrite ?app_nil_r.
Qed.

Lemma withErrorReport_unfold (ent : Entry) (fs : list Field) :
  withErrorReport ent fs
  = fs ++ (if negb (hasKey contextKey fs) && Defined (Caller ent)
           then [ErrorReport (PC (Caller ent)) (File (Caller ent))
                             (Line (Caller ent)) true]
           else []).
Proof.
  unfold withErrorReport.
  destruct (hasKey contextKey fs), (Defined (Caller ent)); simpl;
    by rewrite ?app_nil_r.
Qed.

Lemma withSourceLocation_new (ent : Entry) (fs0 fs : list Field) :
  adds_new_keys fs0 fs → adds_new_keys fs0 (withSourceLocation ent fs).
Proof.
  intros Hfs. unfold withSourceLocation.
  destruct (hasKey sourceKey fs) eqn:Hk; [done|].
  destruct (Defined (Caller ent)); simpl; [|done].
  by apply adds_new_keys_snoc.
Qed.

Lemma withServiceContext_new (name : string) (fs0 fs : list Field) :
  adds_new_keys fs0 fs → adds_new_keys fs0 (withServiceContext name fs).
Proof.
  intros Hfs. unfold withServiceContext.
  destruct (hasKey serviceContextKey fs) eqn:Hk; [done|].
  by apply adds_new_keys_snoc.
Qed.

Lemma withErrorReport_new (ent : Entry) (fs0 fs : list Field) :
  adds_new_keys fs0 fs → adds_new_keys fs0 (withErrorReport ent fs).
Proof.
  intros Hfs. unfold withErrorReport.
  destruct (hasKey contextKey fs) eqn:Hk; [done|].
  destruct (Defined (Caller ent)); simpl; [|done].
  by apply adds_new_keys_snoc.
Qed.

(** Once a rule has run, running it again on any extension of its result
    changes nothing. *)
Lemma withSourceLocation_stable (ent : Entry) (fs more : list Field) :
  withSourceLocation ent (withSourceLocation ent fs ++ more)
  = withSourceLocation ent fs ++ more.
Proof.
  unfold withSourceLocation.
  destruct (hasKey sourceKey fs) eqn:Hk.
  - by rewrite hasKey_app, Hk.
  - destruct (Defined (Caller ent)); simpl.
    + rewrite !hasKey_app. simpl. rewrite String.eqb_refl.
      by rewrite orb_true_r.
    + by destruct (hasKey sourceKey (fs ++ more)).
Qed.

Lemma withServiceContext_stable (name name' : string) (fs more : list Field) :
  withServiceContext name' (withServiceContext name fs ++ more)
  = withServiceContext name fs ++ more.
Proof.
  unfold withServiceContext.
  destruct (hasKey serviceContextKey fs) eqn:Hk.
  - by rewrite hasKey_app, Hk.
  - rewrite !hasKey_app. simpl. rewrite String.eqb_refl.
    by rewrite orb_true_r.
Qed.

Lemma withErrorReport_stable (ent : Entry) (fs more : list Field) :
  withErrorReport ent (withErrorReport ent fs ++ more)
  = withErrorReport ent fs ++ more.
Proof.
  unfold withErrorReport.
  destruct (hasKey contextKey fs) eqn:Hk.
  - by rewrite hasKey_app, Hk.
  - destruct (Defined (Caller ent)); simpl.
    + rewrite !hasKey_app. simpl. rewrite String.eqb_refl.
      by rewrite orb_true_r.
    + by destruct (hasKey contextKey (fs ++ more)).
Qed.

Lemma decorate_upto_service_new (cfg : driverConfig) (ent : Entry)
    (fs0 fs : list Field) :
  adds_new_keys fs0 fs → adds_new_keys fs0 (decorate_upto_service cfg ent fs).
Proof.
  intros Hfs. unfold decorate_upto_service.
  destruct (negb _); [apply withServiceContext_new|];
    by apply withSourceLocation_new.
Qed.

Lemma decorate_errors_new (cfg : driverConfig) (ent : Entry)
    (fs0 fs : list Field) :
  adds_new_keys fs0 fs → adds_new_keys fs0 (decorate_errors cfg ent fs).
Proof.
  intros Hfs. unfold decorate_errors.
  destruct (_ && _); [|done].
  destruct (String.eqb _ _); [apply withServiceContext_new|];
    by apply withErrorReport_new.
Qed.

Lemma decorate_new (cfg : driverConfig) (ent : Entry) (fs : list Field) :
  adds_new_keys fs (decorate cfg ent fs).
Proof.
  unfold decorate. apply decorate_errors_new, decorate_upto_service_new,
    adds_new_keys_refl.
Qed.

Lemma decorate_upto_service_stable (cfg : driverConfig) (ent : Entry)
    (fs more : list Field) :
  decorate_upto_service cfg ent (decorate_upto_service cfg ent fs ++ more)
  = decorate_upto_service cfg ent fs ++ more.
Proof.
  unfold decorate_upto_service. destruct (negb _).
  - rewrite (withServiceContext_unfold _ (withSourceLocation ent fs)) at 1.
    rewrite <- app_assoc, withSourceLocation_stable, app_assoc.
    rewrite <- withServiceContext_unfold.
    apply withServiceContext_stable.
  - apply withSourceLocation_stable.
Qed.

Lemma decorate_errors_stable (cfg : driverConfig) (ent : Entry)
    (fs more : list Field) :
  decorate_errors cfg ent (decorate_errors cfg ent fs ++ more)
  = decorate_errors cfg ent fs ++ more.
Proof.
  unfold decorate_errors. destruct (_ && _); [|done].
  destruct (String.eqb _ _).
  - rewrite (withServiceContext_unfold _ (withErrorReport ent fs)) at 1.
    rewrite <- app_assoc, withErrorReport_stable, app_assoc.
    rewrite <- withServiceContext_unfold.
    apply withServiceContext_stable.
  - apply withErrorReport_stable.
Qed.

(** C5: the three enrichment rules are idempotent.  Running them again on
    their own result appends nothing; and what one run appends to a field
    set are fields whose keys the set did not use, no two under one key, so
    a caller's field under a reserved key stays as it is and gets no
    auto-derived companion. *)
Theorem decorate_idempotent (cfg : driverConfig) (ent : Entry) (fs : list Field) :
  decorate cfg ent (decorate cfg ent fs) = decorate cfg ent fs
  ∧ ∃ app, decorate cfg ent fs = fs ++ app
           ∧ (∀ k, hasKey k fs = true → keyCount k app = 0%nat)
           ∧ (∀ k, (keyCount k app ≤ 1)%nat).
Proof.
  split; [|apply decorate_new].
  unfold decorate. set (U := decorate_upto_service cfg ent fs).
  destruct (adds_new_keys_prefix _ _
              (decorate_errors_new cfg ent _ _ (adds_new_keys_refl U)))
    as [tail Htail].
  assert (decorate_upto_service cfg ent (decorate_errors cfg ent U)
          = decorate_errors cfg ent U) as ->.
  { rewrite Htail. subst U. apply decorate_upto_service_stable. }
  pose proof (decorate_errors_stable cfg ent U []) as Hs.
  by rewrite !app_nil_r in Hs.
Qed.

(** C4 (as amended): what the error-report rule appends.  The error-report
    field is appended exactly when [ReportAllErrors] is set, the level is
    error or above, the caller is defined and no field of the set uses the
    error-report key; when that happens and no service name is configured,
    one [unknown] service-context field follows it unless a field of the set
    already uses the service-context key, in which case none does. *)
Theorem error_report_rule (cfg : driverConfig) (ent : Entry) (fs : list Field) :
  let pre := decorate_upto_service cfg ent fs in
  let gate := ReportAllErrors cfg && Level_Enabled ErrorLevel (Level ent) in
  let fires := gate && Defined (Caller ent) && negb (hasKey contextKey pre) in
  let report := ErrorReport (PC (Caller ent)) (File (Caller ent))
                            (Line (Caller ent)) true in
  let mid := pre ++ (if fires then [report] else []) in
  let fallback := gate && String.eqb (ServiceName cfg) ""
                  && negb (hasKey serviceContextKey mid) in
  decorate cfg ent fs
    = mid ++ (if fallback then [ServiceContext "unknown"] else [])
  ∧ ((∃ rest, decorate cfg ent fs = pre ++ report :: rest) ↔ fires = true)
  ∧ (fires = true → ServiceName cfg = "" →
       decorate cfg ent fs
       = if hasKey serviceContextKey (pre ++ [report])
         then pre ++ [report]
         else pre ++ [report; ServiceContext "unknown"]).
Proof.
  intros pre gate fires report mid fallback.
  assert (decorate cfg ent fs
          = mid ++ (if fallback then [ServiceContext "unknown"] else []))
    as Heq.
  { unfold decorate, decorate_errors. fold pre. fold gate.
    subst fallback mid fires. destruct gate; simpl; [|by rewrite !app_nil_r].
    rewrite withErrorReport_unfold. fold report.
    rewrite (andb_comm (Defined (Caller ent))).
    destruct (String.eqb (ServiceName cfg) ""); simpl; [|by rewrite app_nil_r].
    by rewrite withServiceContext_unfold. }
  split; [exact Heq|]. split; [split|].
  - intros [rest Hrest]. rewrite Heq in Hrest. subst mid.
    destruct fires; [done|]. exfalso.
    rewrite app_nil_r in Hrest. apply app_inv_head in Hrest.
    destruct fallback; discriminate.
  - intros Hf. rewrite Heq. subst mid. rewrite Hf.
    rewrite <- app_assoc. by eexists.
  - intros Hf Hname. rewrite Heq. subst fallback mid. rewrite Hf.
    assert (gate = true) as ->.
    { subst fires. by destruct gate. }
    rewrite Hname. simpl.
    destruct (hasKey serviceContextKey (pre ++ [report])); simpl.
    + by rewrite app_nil_r.
    + by rewrite <- app_assoc.
Qed.

End DecoratorFacts.

(** C4 (as stated) fails: with error reporting on, an error-level record, a
    defined caller and no service name the rule fires, and a caller-supplied
    service-context field keeps the [unknown] one from being appended. *)
Lemma error_report_without_unknown_service :
  let mine := Sample.str "serviceContext" "mine" in
  @decorate Sample.keys (mkConfig true "") (Sample.entry ErrorLevel "failed") [mine]
  = [ mine;
      @SourceLocation Sample.keys 4096 "main.go" 42 true;
      @ErrorReport Sample.keys 4096 "main.go" 42 true ].
Proof. reflexivity. Qed.

(** ** Label stores *)

Lemma copyInto_union (src dst : labelStore) : copyInto src dst = src ∪ dst.
Proof.
  unfold copyInto.
  apply (map_fold_weak_ind (λ r m, r = m ∪ dst)).
  - by rewrite (left_id_L ∅ (∪)).
  - intros k v m r Hk ->. by rewrite insert_union_l.
Qed.

(** A lookup in an overlay: the upper store's entry when it has one, the
    lower store's otherwise. *)
Lemma overlay_lookup (upper lower : labelStore) (k : string) :
  (upper ∪ lower) !! k
  = match upper !! k with Some v => Some v | None => lower !! k end.
Proof.
  destruct (upper !! k) as [v|] eqn:Hk.
  - by apply lookup_union_Some_l.
  - by rewrite lookup_union_r.
Qed.

(** ** The decorating core *)

Section CoreFacts.
Context `{ReservedKeys} `{Formatter}.
Context {C L S : Type} `{ZapCore C S} `{RemoteClient L}.

Lemma allLabels_unfold (c : core C) (h : gmap nat labelStore) :
  allLabels c h
  = perm ← h !! permLabels c; temp ← h !! tempLabels c; Some (temp ∪ perm).
Proof.
  unfold allLabels. destruct (h !! permLabels c) as [perm|]; simpl; [|done].
  destruct (h !! tempLabels c) as [temp|]; simpl; [|done].
  rewrite !copyInto_union. unfold newLabels.
  by rewrite (right_id_L ∅ (∪)).
Qed.


(** What a call of [Write] that returns has done. *)
Lemma Write_inv (c : core C) (ent : Entry) (fs : list Field)
    (w w' : world L S) (err : option string) :
  Write c ent fs w = Some (err, w') →
  ∃ temp0 p0 l all,
    heap w !! tempLabels c = Some temp0
    ∧ fillPayload (fields c) ∅ = Some p0
    ∧ lg c = Some l
    ∧ allLabels c (<[tempLabels c := (extractLabels fs).1 ∪ temp0]> (heap w))
      = Some all
    ∧ core_Write (Core c) ent
        (decorate (config c) ent ((extractLabels fs).2 ++ [labelsField all]))
        (sink w) = (err, sink w')
    ∧ heap w'
      = <[tempLabels c := ∅]>
          (<[tempLabels c := (extractLabels fs).1 ∪ temp0]> (heap w))
    ∧ loggers w'
      = set_logger l
          (lg_Log (loggers w l)
             (mkGlog ent (<["message" := StringV (Message ent)]> p0) all))
          (loggers w).
Proof.
  unfold Write. destruct (extractLabels fs) as [lbls out]. simpl.
  destruct (heap w !! tempLabels c) as [temp0|]; simpl; [|discriminate].
  destruct (fillPayload (fields c) ∅) as [p0|]; simpl; [|discriminate].
  rewrite copyInto_union.
  destruct (allLabels c _) as [all|] eqn:Hall; simpl; [|discriminate].
  destruct (lg c) as [l|]; simpl; [|discriminate].
  rewrite lookup_insert_eq. simpl.
  destruct (core_Write _ _ _ _) as [e s1] eqn:Hw.
  intros [= <- <-]. exists temp0, p0, l, all. simpl.
  repeat split; done.
Qed.

Lemma allLabels_is_Some (c : core C) (h : gmap nat labelStore) :
  is_Some (allLabels c h)
  ↔ is_Some (h !! permLabels c) ∧ is_Some (h !! tempLabels c).
Proof.
  rewrite allLabels_unfold.
  destruct (h !! permLabels c) as [perm|]; simpl.
  - destruct (h !! tempLabels c) as [temp|]; simpl.
    + split; [intros _; split; by eexists | intros _; by eexists].
    + split; [intros [? ?]; discriminate | intros [_ [? ?]]; discriminate].
  - split; [intros [? ?]; discriminate | intros [[? ?] _]; discriminate].
Qed.

Lemma stored_after_insert (h : gmap nat labelStore) (p q : nat) (x : labelStore) :
  is_Some (h !! p) → (is_Some (<[p := x]> h !! q) ↔ is_Some (h !! q)).
Proof.
  intros Hp. rewrite lookup_insert_is_Some.
  destruct (decide (p = q)) as [->|Hne]; [tauto|]. tauto.
Qed.

(** [Write] returns for every core whose stores exist, whose logger is set
    and whose accumulated fields all convert; it panics otherwise. *)
Lemma Write_returns_iff (c : core C) (ent : Entry) (fs : list Field)
    (w : world L S) :
  is_Some (Write c ent fs w)
  ↔ is_Some (heap w !! permLabels c) ∧ is_Some (heap w !! tempLabels c)
    ∧ is_Some (lg c) ∧ is_Some (fillPayload (fields c) ∅).
Proof.
  split.
  - intros [[err w'] Hw].
    apply Write_inv in Hw as (temp0 & p0 & l & all & Ht & Hp & Hl & Hall & _).
    assert (is_Some (heap w !! tempLabels c)) as Htemp by by eexists.
    assert (is_Some (allLabels c
              (<[tempLabels c := (extractLabels fs).1 ∪ temp0]> (heap w))))
      as Hsome by by eexists.
    apply allLabels_is_Some in Hsome as [Hperm _].
    apply stored_after_insert in Hperm; [|done].
    repeat split; [done | done | by eexists | by eexists].
  - intros (Hperm & [temp0 Ht] & [l Hl] & [p0 Hp]).
    unfold Write. destruct (extractLabels fs) as [lbls out].
    rewrite Ht. simpl. rewrite Hp. simpl.
    assert (is_Some (allLabels c
              (<[tempLabels c := copyInto lbls temp0]> (heap w))))
      as [all Hall].
    { apply allLabels_is_Some.
      split; apply stored_after_insert; by eauto. }
    rewrite Hall. simpl. rewrite Hl. simpl.
    rewrite lookup_insert_eq. simpl.
    destruct (core_Write _ _ _ _). by eexists.
Qed.

(** The same, for a core whose two stores are different objects: the entry
    handed to the remote client, the call made to the wrapped core and the
    heap afterwards, in terms of the state [Write] starts in. *)
Lemma Write_spec (c : core C) (ent : Entry) (fs : list Field)
    (w w' : world L S) (err : option string) :
  permLabels c ≠ tempLabels c →
  Write c ent fs w = Some (err, w') →
  ∃ l perm temp0 p0,
    lg c = Some l
    ∧ heap w !! permLabels c = Some perm
    ∧ heap w !! tempLabels c = Some temp0
    ∧ fillPayload (fields c) ∅ = Some p0
    ∧ loggers w' l
      = lg_Log (loggers w l)
          (mkGlog ent (<["message" := StringV (Message ent)]> p0)
                  (((extractLabels fs).1 ∪ temp0) ∪ perm))
    ∧ core_Write (Core c) ent
        (decorate (config c) ent
           ((extractLabels fs).2
            ++ [labelsField (((extractLabels fs).1 ∪ temp0) ∪ perm)]))
        (sink w) = (err, sink w')
    ∧ heap w' = <[tempLabels c := ∅]> (heap w).
Proof.
  intros Hne Hw.
  apply Write_inv in Hw
    as (temp0 & p0 & l & all & Ht & Hp & Hl & Hall & Hsink & Hheap & Hlog).
  assert (tempLabels c ≠ permLabels c) as Hne' by congruence.
  rewrite allLabels_unfold in Hall.
  rewrite (lookup_insert_ne _ (tempLabels c) (permLabels c)) in Hall by done.
  rewrite lookup_insert_eq in Hall.
  destruct (heap w !! permLabels c) as [perm|] eqn:Hperm; [|discriminate].
  injection Hall as <-.
  exists l, perm, temp0, p0. repeat split; try done.
  - rewrite Hlog. unfold set_logger. by rewrite Nat.eqb_refl.
  - rewrite Hheap. apply insert_insert_eq.
Qed.

(** C2: after a call of [Write] that returns, the temporary store is empty
    and the permanent store is what it was before the call; an entry written
    next through the same core carries the permanent labels and that
    write's own labels only. *)
Theorem Write_resets_temp_keeps_perm (c : core C) (ent : Entry)
    (fs : list Field) (w w' : world L S) (err : option string) :
  permLabels c ≠ tempLabels c →
  Write c ent fs w = Some (err, w') →
  heap w' !! tempLabels c = Some ∅
  ∧ heap w' !! permLabels c = heap w !! permLabels c
  ∧ ∀ ent2 fs2 err2 w2, Write c ent2 fs2 w' = Some (err2, w2) →
      ∃ l perm payload,
        lg c = Some l ∧ heap w !! permLabels c = Some perm
        ∧ loggers w2 l
          = lg_Log (loggers w' l)
              (mkGlog ent2 payload ((extractLabels fs2).1 ∪ perm)).
Proof.
  intros Hne Hw.
  destruct (Write_spec _ _ _ _ _ _ Hne Hw)
    as (l & perm & temp0 & p0 & Hl & Hperm & Ht & Hp & _ & _ & Hheap).
  assert (heap w' !! tempLabels c = Some ∅) as Htemp'.
  { rewrite Hheap. apply lookup_insert_eq. }
  assert (heap w' !! permLabels c = heap w !! permLabels c) as Hperm'.
  { rewrite Hheap. apply lookup_insert_ne. congruence. }
  split; [done|]. split; [done|].
  intros ent2 fs2 err2 w2 Hw2.
  destruct (Write_spec _ _ _ _ _ _ Hne Hw2)
    as (l2 & perm2 & temp2 & p2 & Hl2 & Hperm2 & Ht2 & Hp2 & Hlog2 & _).
  rewrite Hl in Hl2. injection Hl2 as <-.
  rewrite Htemp' in Ht2. injection Ht2 as <-.
  rewrite Hperm', Hperm in Hperm2. injection Hperm2 as <-.
  rewrite (right_id_L ∅ (∪)) in Hlog2.
  exists l, perm, (<["message" := StringV (Message ent2)]> p2).
  split; [done|]. split; done.
Qed.

(** C3: for a core whose stores exist, whose logger is set and whose
    accumulated fields convert, [Write] returns, and the label map of the
    entry it hands to the remote client is the permanent store overlaid with
    the temporary store as it is once this write's labels are merged in:
    under every key the temporary store's value when it has one, also when
    the permanent store has that key, and the permanent store's value
    otherwise. *)
Theorem Write_dispatches_label_union (c : core C) (ent : Entry)
    (fs : list Field) (w : world L S) (l : nat) (perm temp0 : labelStore)
    (p0 : gmap string any) :
  permLabels c ≠ tempLabels c →
  heap w !! permLabels c = Some perm →
  heap w !! tempLabels c = Some temp0 →
  lg c = Some l →
  fillPayload (fields c) ∅ = Some p0 →
  let temp := (extractLabels fs).1 ∪ temp0 in
  allLabels c (<[tempLabels c := temp]> (heap w)) = Some (temp ∪ perm)
  ∧ (∃ err w',
       Write c ent fs w = Some (err, w')
       ∧ loggers w' l
         = lg_Log (loggers w l)
             (mkGlog ent (<["message" := StringV (Message ent)]> p0)
                     (temp ∪ perm)))
  ∧ ∀ k, Labels (mkGlog ent (<["message" := StringV (Message ent)]> p0)
                        (temp ∪ perm)) !! k
         = match temp !! k with Some v => Some v | None => perm !! k end.
Proof.
  intros Hne Hperm Ht Hl Hp temp.
  assert (tempLabels c ≠ permLabels c) as Hne' by congruence.
  split; [|split].
  - rewrite allLabels_unfold.
    rewrite (lookup_insert_ne _ (tempLabels c) (permLabels c)) by done.
    by rewrite lookup_insert_eq, Hperm.
  - assert (is_Some (Write c ent fs w)) as [[err w'] Hw].
    { apply Write_returns_iff. repeat split; by eexists. }
    exists err, w'. split; [done|].
    destruct (Write_spec _ _ _ _ _ _ Hne Hw)
      as (l' & perm' & temp' & p' & Hl' & Hperm' & Ht' & Hp' & Hlog & _).
    rewrite Hl in Hl'. injection Hl' as <-.
    rewrite Hperm in Hperm'. injection Hperm' as <-.
    rewrite Ht in Ht'. injection Ht' as <-.
    rewrite Hp in Hp'. injection Hp' as <-.
    exact Hlog.
  - intros k. simpl. apply overlay_lookup.
Qed.


(** ** Cores built by this package are well formed *)

Lemma options_keep_pointers (options : list (core C → core C)) (c : core C) :
  Forall coreOption options →
  permLabels (fold_left (λ nc option, option nc) options c) = permLabels c
  ∧ tempLabels (fold_left (λ nc option, option nc) options c) = tempLabels c.
Proof.
  intros Hopts. revert c.
  induction Hopts as [|o options Ho _ IH]; intros c; simpl; [done|].
  destruct (IH (o c)) as [-> ->]. by destruct Ho.
Qed.

Lemma WrapCore_wf (options : list (core C → core C)) (c : C) (w : world L S) :
  Forall coreOption options →
  core_wf (WrapCore options c w).1 (WrapCore options c w).2
  ∧ heap (WrapCore options c w).2 !! permLabels (WrapCore options c w).1 = Some ∅
  ∧ heap (WrapCore options c w).2 !! tempLabels (WrapCore options c w).1 = Some ∅.
Proof.
  intros Hopts. unfold WrapCore, core_wf. simpl.
  destruct (options_keep_pointers options
              (mkCore c [] None (fresh (dom (heap w)))
                 (fresh (dom (<[fresh (dom (heap w)) := newLabels]> (heap w))))
                 (mkConfig false "")) Hopts) as [-> ->].
  simpl. set (p := fresh (dom (heap w))).
  set (t := fresh (dom (<[p := newLabels]> (heap w)))).
  assert (p ≠ t) as Hne.
  { intros Heq. apply (is_fresh (dom (<[p := newLabels]> (heap w)))).
    fold t. rewrite <- Heq. apply elem_of_dom. rewrite lookup_insert_eq.
    by eexists. }
  rewrite lookup_insert_ne, !lookup_insert_eq by done.
  repeat split; [done | by eexists | by eexists].
Qed.

Lemma With_wf (c : core C) (fs : list Field) (w : world L S) :
  core_wf c w →
  ∃ c' w', With c fs w = Some (c', w')
           ∧ core_wf c' w' ∧ core_wf c w'
           ∧ permLabels c' = permLabels c
           ∧ heap w' !! tempLabels c' = Some ∅
           ∧ fields c' = fields c ++ (extractLabels fs).2.
Proof.
  intros (Hne & [perm Hperm] & [temp Htemp]).
  unfold With. destruct (extractLabels fs) as [lbls out]. rewrite Hperm. simpl.
  eexists _, _. split; [reflexivity|]. unfold core_wf. simpl.
  set (h1 := <[permLabels c := copyInto lbls perm]> (heap w)).
  assert (∀ q, is_Some (h1 !! q) → fresh (dom h1) ≠ q) as Hfresh.
  { intros q Hq Heq. apply (is_fresh (dom h1)). rewrite Heq.
    by apply elem_of_dom. }
  assert (is_Some (h1 !! permLabels c)) as Hp1.
  { subst h1. rewrite lookup_insert_eq. by eexists. }
  assert (is_Some (h1 !! tempLabels c)) as Ht1.
  { subst h1. rewrite lookup_insert_ne, Htemp by done. by eexists. }
  pose proof (Hfresh _ Hp1) as Hfp. pose proof (Hfresh _ Ht1) as Hft.
  rewrite !lookup_insert_eq, !(lookup_insert_ne _ (fresh (dom h1))) by done.
  repeat split; try done; by eexists.
Qed.

(** [With] merges the labels of its fields into the permanent store, which
    the new core shares, and passes the other fields on. *)
Lemma With_merges (c c' : core C) (fs : list Field) (w w' : world L S)
    (perm : labelStore) :
  heap w !! permLabels c = Some perm →
  With c fs w = Some (c', w') →
  permLabels c' = permLabels c
  ∧ heap w' !! permLabels c = Some ((extractLabels fs).1 ∪ perm)
  ∧ fields c' = fields c ++ (extractLabels fs).2
  ∧ Core c' = core_With (Core c) (extractLabels fs).2.
Proof.
  intros Hperm. unfold With. destruct (extractLabels fs) as [lbls out].
  rewrite Hperm. simpl. intros [= <- <-]. simpl.
  set (h1 := <[permLabels c := copyInto lbls perm]> (heap w)).
  assert (fresh (dom h1) ≠ permLabels c) as Hne.
  { intros Heq. apply (is_fresh (dom h1)). rewrite Heq. apply elem_of_dom.
    subst h1. rewrite lookup_insert_eq. by eexists. }
  rewrite lookup_insert_ne by done. subst h1.
  by rewrite lookup_insert_eq, copyInto_union.
Qed.

Lemma Write_wf (c0 c : core C) (ent : Entry) (fs : list Field)
    (w w' : world L S) (err : option string) :
  core_wf c0 w → Write c ent fs w = Some (err, w') → core_wf c0 w'.
Proof.
  intros (Hne & Hperm & Htemp) Hw.
  apply Write_inv in Hw as (temp0 & _ & _ & _ & Ht & _ & _ & _ & _ & Hheap & _).
  unfold core_wf. rewrite Hheap, insert_insert_eq.
  split; [done|]. split; apply stored_after_insert; by eauto.
Qed.

(** [Write] returns for a well-formed core with a logger whose accumulated
    fields have well-typed slots. *)
Lemma fillPayload_typed (fs : list Field) (p : gmap string any) :
  Forall (λ f, slot_ok f = true) fs → is_Some (fillPayload fs p).
Proof.
  intros Hfs. revert p. induction Hfs as [|f fs Hf _ IH]; intros p; simpl.
  - by eexists.
  - apply ToInterface_is_Some in Hf as [v ->]. simpl. apply IH.
Qed.

Lemma Write_returns (c : core C) (ent : Entry) (fs : list Field)
    (w : world L S) :
  core_wf c w → is_Some (lg c) → Forall (λ f, slot_ok f = true) (fields c) →
  is_Some (Write c ent fs w).
Proof.
  intros (_ & Hperm & Htemp) Hlg Hfs. apply Write_returns_iff.
  repeat split; try done. by apply fillPayload_typed.
Qed.

(** [Sync] returns what the wrapped core's [Sync] returns; the error of the
    remote flush is dropped. *)
Lemma Sync_returns_sink_error (c : core C) (w w' : world L S)
    (err : option string) :
  Sync c w = Some (err, w') → core_Sync (Core c) (sink w) = (err, sink w').
Proof.
  unfold Sync. destruct (lg c) as [l|]; simpl; [|discriminate].
  destruct (lg_Flush _) as [e l1]. destruct (core_Sync _ _) as [e2 s1].
  by intros [= <- <-].
Qed.

End CoreFacts.

(** ** The returned error *)

Section RemoteIndependence.
Context `{ReservedKeys} `{Formatter}.
Context {C S L1 L2 : Type} `{ZapCore C S}.
Context (R1 : RemoteClient L1) (R2 : RemoteClient L2).

(** C6: the error [Write] returns is the one the wrapped core's [Write]
    returned for the decorated field set; and whatever the remote client is
    and does, the wrapped core is called and [Write] returns that same
    error and leaves the same sink and heap. *)
Theorem Write_returns_sink_error (c : core C) (ent : Entry) (fs : list Field)
    (w1 w1' : world L1 S) (w2 : world L2 S) (err : option string) :
  heap w2 = heap w1 → sink w2 = sink w1 →
  Write c ent fs w1 = Some (err, w1') →
  (∃ all, core_Write (Core c) ent
            (decorate (config c) ent ((extractLabels fs).2 ++ [labelsField all]))
            (sink w1) = (err, sink w1'))
  ∧ ∃ w2', Write c ent fs w2 = Some (err, w2')
           ∧ sink w2' = sink w1' ∧ heap w2' = heap w1'.
Proof.
  intros Hheap Hsink Hw1.
  assert (is_Some (Write c ent fs w2)) as [[err2 w2'] Hw2].
  { apply Write_returns_iff. rewrite Hheap.
    apply (Write_returns_iff c ent fs w1). by eexists. }
  apply Write_inv in Hw1
    as (temp0 & p0 & l & all & Ht & Hp & Hl & Hall & Hs1 & Hh1 & _).
  split; [by exists all|].
  exists w2'. pose proof Hw2 as Hinv.
  apply Write_inv in Hinv
    as (temp2 & p2 & l2 & all2 & Ht2 & _ & _ & Hall2 & Hs2 & Hh2 & _).
  rewrite Hheap, Ht in Ht2. injection Ht2 as <-.
  rewrite Hheap, Hall in Hall2. injection Hall2 as <-.
  rewrite Hsink, Hs1 in Hs2. injection Hs2 as <- <-.
  split; [done|]. split; [done|]. by rewrite Hh1, Hh2, Hheap.
Qed.

End RemoteIndependence.

(** ** The scenario of the specification *)

(** C2 on the scenario: a write with [labels.request_id = 42] leaves the
    temporary store empty and the permanent store at [env = prod]. *)
Lemma Write_resets_temp_keeps_perm_scenario :
  let c := Sample.scope (mkConfig false "") in
  ∃ err w',
    Sample.write c (Sample.entry InfoLevel "served") Sample.request
                 (Sample.start []) = Some (err, w')
    ∧ heap w' !! tempLabels c = Some ∅
    ∧ heap w' !! permLabels c = Some {[ "env" := "prod" ]}.
Proof.
  assert (∃ err w',
            Sample.write (Sample.scope (mkConfig false ""))
              (Sample.entry InfoLevel "served") Sample.request
              (Sample.start []) = Some (err, w')) as (err & w' & Hw).
  { eexists _, _. vm_compute. reflexivity. }
  exists err, w'. split; [exact Hw|].
  destruct (Write_resets_temp_keeps_perm
              (H := Sample.keys) (H0 := Sample.formatter)
              (H1 := Sample.zapCore) (H2 := Sample.queueing)
              (Sample.scope (mkConfig false "")) _ _ _ _ _
              ltac:(simpl; lia) Hw) as (Htemp & Hperm & _).
  split; [exact Htemp|]. rewrite Hperm. reflexivity.
Defined.

(** C3 on a collision: the scope has the permanent label [env = prod], the
    write gives [labels.env = staging]; the entry handed to the remote
    client carries [env = staging]. *)
Lemma Write_dispatches_label_union_scenario :
  let c := Sample.scope (mkConfig false "") in
  let ent := Sample.entry InfoLevel "served" in
  heap (Sample.start ([] : list logging_Entry)) !! permLabels c
  = Some {[ "env" := "prod" ]}
  ∧ ∃ err w',
      Sample.write c ent Sample.override (Sample.start []) = Some (err, w')
      ∧ loggers w' 0%nat
        = [mkGlog ent {[ "message" := StringV "served"; "user" := StringV "x" ]}
                  {[ "env" := "staging" ]}].
Proof.
  split; [reflexivity|].
  exact (proj1 (proj2 (Write_dispatches_label_union
           (H := Sample.keys) (H0 := Sample.formatter)
           (H1 := Sample.zapCore) (H2 := Sample.queueing)
           (Sample.scope (mkConfig false ""))
           (Sample.entry InfoLevel "served") Sample.override
           (Sample.start []) 0%nat {[ "env" := "prod" ]} ∅
           {[ "user" := StringV "x" ]}
           ltac:(simpl; lia) eq_refl eq_refl eq_refl eq_refl))).
Defined.

(** C6 on the scenario: the sink fails on the message [boom]; [Write]
    returns that error whether the remote client queues or drops. *)
Lemma Write_returns_sink_error_scenario :
  let c := Sample.scope (mkConfig true "") in
  ∃ w1 w2,
    Sample.write c (Sample.entry ErrorLevel "boom") Sample.request
                 (Sample.start []) = Some (Some "sink failed", w1)
    ∧ Sample.write_dropping c (Sample.entry ErrorLevel "boom") Sample.request
                 (Sample.start 0%nat) = Some (Some "sink failed", w2)
    ∧ sink w2 = sink w1.
Proof.
  assert (∃ w1,
            Sample.write (Sample.scope (mkConfig true ""))
              (Sample.entry ErrorLevel "boom") Sample.request
              (Sample.start []) = Some (Some "sink failed", w1)) as (w1 & Hw).
  { eexists. vm_compute. reflexivity. }
  destruct (Write_returns_sink_error
              (H := Sample.keys) (H0 := Sample.formatter) (H1 := Sample.zapCore)
              Sample.queueing Sample.dropping
              (Sample.scope (mkConfig true ""))
              (Sample.entry ErrorLevel "boom") Sample.request
              (Sample.start []) w1 (Sample.start 0%nat) _ eq_refl eq_refl Hw)
    as (_ & w2 & Hw2 & Hsink & _).
  exists w1, w2. split; [exact Hw|]. split; [exact Hw2 | exact Hsink].
Defined.


(** * Further properties of core.go *)

(** ** The field classifier, continued *)

Lemma storeLabel_fold_union (l : list Field) (m : labelStore) :
  fold_left storeLabel l m = fold_left storeLabel l ∅ ∪ m.
Proof.
  revert m. induction l as [|g l IH]; intros m; simpl.
  - by rewrite (left_id_L ∅ (∪)).
  - rewrite (IH (storeLabel m g)), (IH (storeLabel ∅ g)). unfold storeLabel.
    rewrite insert_empty, (insert_union_singleton_l m).
    by rewrite (assoc_L (∪)).
Qed.

Lemma filter_label_of_rest (fs : list Field) :
  List.filter isLabelField (List.filter (λ f, negb (isLabelField f)) fs) = [].
Proof.
  induction fs as [|f fs IH]; simpl; [done|].
  destruct (isLabelField f) eqn:Hf; simpl; [done|]. by rewrite Hf.
Qed.

Lemma filter_rest_of_rest (fs : list Field) :
  List.filter (λ f, negb (isLabelField f))
    (List.filter (λ f, negb (isLabelField f)) fs)
  = List.filter (λ f, negb (isLabelField f)) fs.
Proof.
  induction fs as [|f fs IH]; simpl; [done|].
  destruct (isLabelField f) eqn:Hf; simpl; [done|]. by rewrite Hf, IH.
Qed.

(** X1: classifying a concatenation is classifying the parts: the
    pass-through lists are concatenated and the label stores overlaid, the
    later part's labels winning. *)
Theorem extractLabels_app (a b : list Field) :
  extractLabels (a ++ b)
  = ((extractLabels b).1 ∪ (extractLabels a).1,
     (extractLabels a).2 ++ (extractLabels b).2).
Proof.
  rewrite !extractLabels_unfold. simpl.
  rewrite !List.filter_app, fold_left_app.
  by rewrite storeLabel_fold_union.
Qed.

(** X2: the pass-through list holds no label field; classifying it again
    extracts no label and returns it as it is. *)
Theorem extractLabels_output_clean (fs : list Field) :
  Forall (λ f, isLabelField f = false) (extractLabels fs).2
  ∧ extractLabels (extractLabels fs).2 = (∅, (extractLabels fs).2).
Proof.
  rewrite !extractLabels_unfold. simpl. split.
  - apply List.Forall_forall. intros f Hf. apply filter_In in Hf as [_ Hf].
    by destruct (isLabelField f).
  - by rewrite filter_label_of_rest, filter_rest_of_rest.
Qed.

Lemma label_prefix_app (name : string) :
  String.prefix "labels." ("labels." +:+ name) = true.
Proof. simpl. by destruct name. Qed.

(** X3: a string field keyed [labels.] followed by a name is stored under
    exactly that name with its text, whatever the name is (empty, or holding
    the prefix again), and is not passed through. *)
Theorem extractLabels_label_round_trip (name value : string) (n : Z) (i : any) :
  extractLabels [mkField ("labels." +:+ name) StringType n value i]
  = ({[ name := value ]}, []).
Proof.
  unfold extractLabels. cbn [fold_left].
  unfold extractLabels_step, isLabelField, HasPrefix.
  cbn [Key String_ Type_ isStringType].
  rewrite label_prefix_app. cbn [negb andb].
  rewrite Replace1_prefix by apply label_prefix_app.
  unfold newLabels. by rewrite insert_empty.
Qed.

Section WithLabelsFacts.
Context `{ReservedKeys}.

Lemma withLabels_step_same (acc : labelStore * list Field) (f : Field) :
  withLabels_step acc f = extractLabels_step acc f.
Proof.
  destruct acc as [lbls out]. unfold withLabels_step, extractLabels_step.
  by destruct (isLabelField f).
Qed.

Lemma withLabels_fold_same (fs : list Field) (acc : labelStore * list Field) :
  fold_left withLabels_step fs acc = fold_left extractLabels_step fs acc.
Proof.
  revert acc. induction fs as [|f fs IH]; intros acc; simpl; [done|].
  by rewrite withLabels_step_same, IH.
Qed.

(** X4: [withLabels] is [extractLabels] followed by the labels field: the
    non-label fields in order, then one field carrying the extracted labels,
    also for an input without fields or without labels. *)
Theorem withLabels_agrees (fs : list Field) :
  withLabels fs = (extractLabels fs).2 ++ [labelsField (extractLabels fs).1]
  ∧ length (withLabels fs)
    = Datatypes.S (length (List.filter (λ f, negb (isLabelField f)) fs))
  ∧ List.last (withLabels fs) (labelsField ∅)
    = labelsField (extractLabels fs).1.
Proof.
  assert (withLabels fs
          = (extractLabels fs).2 ++ [labelsField (extractLabels fs).1]) as Heq.
  { unfold withLabels, extractLabels. rewrite withLabels_fold_same.
    by destruct (fold_left extractLabels_step fs (newLabels, [])). }
  split; [done|]. rewrite Heq. split.
  - rewrite extractLabels_unfold. simpl. rewrite length_app. simpl. lia.
  - apply List.last_last.
Qed.

End WithLabelsFacts.

(** ** The enrichment rules, continued *)

Section DecoratorMore.
Context `{ReservedKeys}.

Lemma hasKey_app_l (k : string) (a b : list Field) :
  hasKey k a = true → hasKey k (a ++ b) = true.
Proof. intros Ha. by rewrite hasKey_app, Ha. Qed.

Lemma hasKey_snoc_same (a : list Field) (x : Field) :
  hasKey (Key x) (a ++ [x]) = true.
Proof.
  rewrite hasKey_app. simpl. rewrite String.eqb_refl. apply orb_true_r.
Qed.

Lemma withServiceContext_has (name : string) (a : list Field) :
  hasKey serviceContextKey (withServiceContext name a) = true.
Proof.
  unfold withServiceContext.
  destruct (hasKey serviceContextKey a) eqn:Hk; [done|].
  apply (hasKey_snoc_same a (ServiceContext name)).
Qed.

Lemma withSourceLocation_has (ent : Entry) (a : list Field) :
  Defined (Caller ent) = true →
  hasKey sourceKey (withSourceLocation ent a) = true.
Proof.
  intros Hdef. unfold withSourceLocation.
  destruct (hasKey sourceKey a) eqn:Hk; [done|]. rewrite Hdef. simpl.
  apply (hasKey_snoc_same a (SourceLocation _ _ _ _)).
Qed.

Lemma withErrorReport_has (ent : Entry) (a : list Field) :
  Defined (Caller ent) = true →
  hasKey contextKey (withErrorReport ent a) = true.
Proof.
  intros Hdef. unfold withErrorReport.
  destruct (hasKey contextKey a) eqn:Hk; [done|]. rewrite Hdef. simpl.
  apply (hasKey_snoc_same a (ErrorReport _ _ _ _)).
Qed.

(** X5: the source-location rule appends its field exactly when the caller
    is defined and no field uses the source-location key, and the field
    carries the caller's program counter, file and line; the service-context
    rule then appends the configured name exactly when it is not empty and
    no field of the set uses the service-context key. *)
Theorem source_and_service_rules (cfg : driverConfig) (ent : Entry)
    (fs : list Field) :
  let loc := SourceLocation (PC (Caller ent)) (File (Caller ent))
                            (Line (Caller ent)) true in
  let located := Defined (Caller ent) && negb (hasKey sourceKey fs) in
  let mid := fs ++ (if located then [loc] else []) in
  let named := negb (String.eqb (ServiceName cfg) "")
               && negb (hasKey serviceContextKey mid) in
  withSourceLocation ent fs = mid
  ∧ decorate_upto_service cfg ent fs
    = mid ++ (if named then [ServiceContext (ServiceName cfg)] else [])
  ∧ ((∃ rest, decorate_upto_service cfg ent fs = fs ++ loc :: rest)
     ↔ located = true).
Proof.
  intros loc located mid named.
  assert (withSourceLocation ent fs = mid) as Hmid.
  { rewrite withSourceLocation_unfold. subst mid located. fold loc.
    by rewrite andb_comm. }
  assert (decorate_upto_service cfg ent fs
          = mid ++ (if named then [ServiceContext (ServiceName cfg)] else []))
    as Heq.
  { unfold decorate_upto_service. rewrite Hmid. subst named.
    destruct (String.eqb (ServiceName cfg) ""); simpl.
    - by rewrite app_nil_r.
    - apply withServiceContext_unfold. }
  split; [done|]. split; [done|]. rewrite Heq. subst mid. split.
  - intros [rest Hrest]. destruct located; [done|]. exfalso.
    rewrite app_nil_r in Hrest. apply app_inv_head in Hrest.
    destruct named; discriminate.
  - intros ->. rewrite <- app_assoc. by eexists.
Qed.

(** X6: what a decorated field set is sure to hold.  With a defined caller
    it has a source-location field; with a service name it has a
    service-context field; when error reporting is on and the level is error
    or above it has a service-context field in any case, and an error-report
    field if the caller is defined.  Without a defined caller whatever was
    appended is a service-context field. *)
Theorem decorate_guarantees (cfg : driverConfig) (ent : Entry)
    (fs : list Field) :
  (Defined (Caller ent) = true →
     hasKey sourceKey (decorate cfg ent fs) = true)
  ∧ (ServiceName cfg ≠ "" →
     hasKey serviceContextKey (decorate cfg ent fs) = true)
  ∧ (ReportAllErrors cfg = true → Level_Enabled ErrorLevel (Level ent) = true →
     hasKey serviceContextKey (decorate cfg ent fs) = true
     ∧ (Defined (Caller ent) = true →
        hasKey contextKey (decorate cfg ent fs) = true))
  ∧ (Defined (Caller ent) = false →
     ∃ app, decorate cfg ent fs = fs ++ app
            ∧ Forall (λ g, Key g = serviceContextKey) app).
Proof.
  assert (∀ a, ∃ more, decorate_errors cfg ent a = a ++ more) as Hext.
  { intros a. apply adds_new_keys_prefix, decorate_errors_new,
      adds_new_keys_refl. }
  split; [|split; [|split]].
  - intros Hdef. unfold decorate.
    destruct (Hext (decorate_upto_service cfg ent fs)) as [more ->].
    apply hasKey_app_l. unfold decorate_upto_service.
    destruct (negb _); [|by apply withSourceLocation_has].
    rewrite withServiceContext_unfold.
    by apply hasKey_app_l, withSourceLocation_has.
  - intros Hname. unfold decorate.
    destruct (Hext (decorate_upto_service cfg ent fs)) as [more ->].
    apply hasKey_app_l. unfold decorate_upto_service.
    apply String.eqb_neq in Hname. rewrite Hname. simpl.
    apply withServiceContext_has.
  - intros Hrep Hlvl. unfold decorate, decorate_errors.
    rewrite Hrep, Hlvl. simpl.
    set (pre := decorate_upto_service cfg ent fs).
    destruct (String.eqb (ServiceName cfg) "") eqn:Hname.
    + split; [apply withServiceContext_has|].
      intros Hdef. rewrite withServiceContext_unfold.
      by apply hasKey_app_l, withErrorReport_has.
    + split; [|by apply withErrorReport_has].
      rewrite withErrorReport_unfold. apply hasKey_app_l.
      subst pre. unfold decorate_upto_service. rewrite Hname. simpl.
      apply withServiceContext_has.
  - intros Hdef. unfold decorate, decorate_errors, decorate_upto_service.
    rewrite !withErrorReport_unfold, !withSourceLocation_unfold, Hdef.
    rewrite !andb_false_r, !app_nil_r.
    destruct (negb (String.eqb (ServiceName cfg) "")) eqn:Hname.
    + apply negb_true_iff in Hname. rewrite Hname, withServiceContext_unfold.
      destruct (_ && _); rewrite ?app_nil_r;
        (eexists; split; [reflexivity|]);
        destruct (negb _); repeat constructor.
    + apply negb_false_iff in Hname. rewrite Hname.
      destruct (_ && _).
      * rewrite withServiceContext_unfold. eexists. split; [reflexivity|].
        destruct (negb _); repeat constructor.
      * exists []. by rewrite app_nil_r.
Qed.

Lemma decorate_appends_metadata (cfg : driverConfig) (ent : Entry) (fs : list Field) :
  ∃ app, decorate cfg ent fs = fs ++ app
         ∧ (length app ≤ 3)%nat
         ∧ Forall (λ g, metadataKey (Key g)) app.
Proof.
  unfold decorate, decorate_errors, decorate_upto_service, metadataKey.
  rewrite withSourceLocation_unfold.
  destruct (String.eqb (ServiceName cfg) "") eqn:Hname; simpl.
  - destruct (_ && _).
    + rewrite withErrorReport_unfold, withServiceContext_unfold.
      rewrite <- !app_assoc. eexists. split; [reflexivity|].
      repeat match goal with
             | |- context [if ?b then _ else _] => destruct b
             end; simpl; (split; [lia|]);
        repeat (apply List.Forall_cons; [simpl; auto|]); apply List.Forall_nil.
    + eexists. split; [reflexivity|].
      destruct (_ && _); simpl; (split; [lia|]);
        repeat (apply List.Forall_cons; [simpl; auto|]); apply List.Forall_nil.
  - rewrite withServiceContext_unfold. destruct (_ && _).
    + rewrite withErrorReport_unfold. rewrite <- !app_assoc.
      eexists. split; [reflexivity|].
      repeat match goal with
             | |- context [if ?b then _ else _] => destruct b
             end; simpl; (split; [lia|]);
        repeat (apply List.Forall_cons; [simpl; auto|]); apply List.Forall_nil.
    + rewrite <- !app_assoc. eexists. split; [reflexivity|].
      repeat match goal with
             | |- context [if ?b then _ else _] => destruct b
             end; simpl; (split; [lia|]);
        repeat (apply List.Forall_cons; [simpl; auto|]); apply List.Forall_nil.
Qed.

(** X7: decoration only appends: the input stays as a prefix, at most three
    fields follow it, and each of them is under one of the three reserved
    keys. *)
Theorem decorate_bound (cfg : driverConfig) (ent : Entry) (fs : list Field) :
  ∃ app, decorate cfg ent fs = fs ++ app
         ∧ (length app ≤ 3)%nat
         ∧ Forall (λ g, metadataKey (Key g)) app.
Proof. apply decorate_appends_metadata. Qed.

End DecoratorMore.

(** ** Narrowing conversions and the severity table *)

Lemma to_signed_narrows (w n : Z) :
  0 < w → narrows_signed w n (to_signed w n).
Proof.
  intros Hw. unfold narrows_signed, to_signed.
  assert (2 ^ w = 2 * 2 ^ (w - 1)) as Hpow.
  { rewrite <- Z.pow_succ_r by lia. f_equal. lia. }
  assert (0 < 2 ^ (w - 1)) as Hpos by (apply Z.pow_pos_nonneg; lia).
  pose proof (Z.mod_pos_bound (n + 2 ^ (w - 1)) (2 ^ w)) as Hb.
  split; [lia|]. split.
  - rewrite (Z.mod_eq (n + 2 ^ (w - 1)) (2 ^ w)) by lia.
    replace (n + 2 ^ (w - 1) - 2 ^ w * ((n + 2 ^ (w - 1)) / 2 ^ w)
             - 2 ^ (w - 1) - n)
      with (- ((n + 2 ^ (w - 1)) / 2 ^ w) * 2 ^ w) by ring.
    apply Z.mod_mul. lia.
  - intros Hn. rewrite Z.mod_small by lia. lia.
Qed.

Lemma to_unsigned_narrows (w n : Z) :
  0 ≤ w → narrows_unsigned w n (to_unsigned w n).
Proof.
  intros Hw. unfold narrows_unsigned, to_unsigned.
  assert (0 < 2 ^ w) as Hpos by (apply Z.pow_pos_nonneg; lia).
  split; [by apply Z.mod_pos_bound|]. split.
  - rewrite (Z.mod_eq n (2 ^ w)) by lia.
    replace (n - 2 ^ w * (n / 2 ^ w) - n) with (- (n / 2 ^ w) * 2 ^ w) by ring.
    apply Z.mod_mul. lia.
  - intros Hn. by apply Z.mod_small.
Qed.

Lemma small_multiple (c m u v : Z) :
  0 ≤ u < m → 0 ≤ v < m → u - v = c * m → u = v.
Proof.
  intros Hu Hv Hd.
  destruct (Z_lt_le_dec c 0) as [Hneg|Hnn].
  - assert (c * m ≤ -1 * m) by (apply Z.mul_le_mono_nonneg_r; lia). lia.
  - destruct (Z_lt_le_dec 0 c) as [Hpos|Hz].
    + assert (1 * m ≤ c * m) by (apply Z.mul_le_mono_nonneg_r; lia). lia.
    + assert (c = 0) as -> by lia. lia.
Qed.

Lemma unsigned_of_signed (w v : Z) :
  0 < w → 0 ≤ v < 2 ^ w → to_unsigned w (to_signed w v) = v.
Proof.
  intros Hw Hv.
  destruct (to_signed_narrows w v Hw) as (_ & Hcong & _).
  destruct (to_unsigned_narrows w (to_signed w v)) as (Hrange & Hcong' & _);
    [lia|].
  assert (0 < 2 ^ w) as Hpos by (apply Z.pow_pos_nonneg; lia).
  apply Z.mod_divide in Hcong as [a Ha]; [|lia].
  apply Z.mod_divide in Hcong' as [b Hb]; [|lia].
  assert (to_unsigned w (to_signed w v) - v = (a + b) * 2 ^ w) as Hdiff by lia.
  by apply (small_multiple (a + b) (2 ^ w)).
Qed.

Lemma signed_of_unsigned (w n : Z) :
  0 < w → - 2 ^ (w - 1) ≤ n < 2 ^ (w - 1) →
  to_signed w (to_unsigned w n) = n.
Proof.
  intros Hw Hn.
  assert (2 ^ w = 2 * 2 ^ (w - 1)) as Hpow.
  { rewrite <- Z.pow_succ_r by lia. f_equal. lia. }
  destruct (to_unsigned_narrows w n) as (_ & Hcong & _); [lia|].
  destruct (to_signed_narrows w (to_unsigned w n) Hw) as (Hrange & Hcong' & _).
  assert (0 < 2 ^ w) as Hpos by (apply Z.pow_pos_nonneg; lia).
  apply Z.mod_divide in Hcong as [a Ha]; [|lia].
  apply Z.mod_divide in Hcong' as [b Hb]; [|lia].
  assert (to_signed w (to_unsigned w n) - n = (a + b) * 2 ^ w) as Hdiff by lia.
  pose proof (small_multiple (a + b) (2 ^ w)
                (to_signed w (to_unsigned w n) + 2 ^ (w - 1))
                (n + 2 ^ (w - 1))) as Hsm.
  lia.
Qed.

Section NormalizerMore.
Context `{Formatter}.

(** X8: the integer tags narrow the 64-bit slot to the tagged width: the
    result is in the range of that width, equal to the slot modulo two to
    the width, and the slot itself whenever it fits; a 64-bit unsigned value
    stored in the slot as its signed reading comes back unchanged. *)
Theorem ToInterface_integers (key : string) (n : Z) (s : string) (i : any) :
  ToInterface (mkField key Int64Type n s i) = Some (Int64V n)
  ∧ (∃ z, ToInterface (mkField key Int32Type n s i) = Some (Int32V z)
          ∧ narrows_signed 32 n z)
  ∧ (∃ z, ToInterface (mkField key Int16Type n s i) = Some (Int16V z)
          ∧ narrows_signed 16 n z)
  ∧ (∃ z, ToInterface (mkField key Int8Type n s i) = Some (Int8V z)
          ∧ narrows_signed 8 n z)
  ∧ (∃ z, ToInterface (mkField key Uint64Type n s i) = Some (Uint64V z)
          ∧ narrows_unsigned 64 n z)
  ∧ (∃ z, ToInterface (mkField key Uint32Type n s i) = Some (Uint32V z)
          ∧ narrows_unsigned 32 n z)
  ∧ (∃ z, ToInterface (mkField key Uint16Type n s i) = Some (Uint16V z)
          ∧ narrows_unsigned 16 n z)
  ∧ (∃ z, ToInterface (mkField key Uint8Type n s i) = Some (Uint8V z)
          ∧ narrows_unsigned 8 n z)
  ∧ (∃ z, ToInterface (mkField key UintptrType n s i) = Some (UintptrV z)
          ∧ narrows_unsigned 64 n z)
  ∧ (∀ v, 0 ≤ v < 2 ^ 64 →
       ToInterface (mkField key Uint64Type (to_signed 64 v) s i)
       = Some (Uint64V v)).
Proof.
  split; [reflexivity|].
  repeat (split;
          [eexists; split;
           [reflexivity
           | first [apply to_signed_narrows | apply to_unsigned_narrows]; lia]
          |]).
  intros v Hv. unfold ToInterface. simpl. by rewrite unsigned_of_signed.
Qed.

(** X9: a 64-bit float is rebuilt from all 64 bits of the slot, so two
    slots give the same bit pattern only if they are equal; a 32-bit float
    is rebuilt from the low 32 bits alone, whatever the upper half holds. *)
Theorem ToInterface_float_bits (key : string) (n : Z) (s : string) (i : any) :
  ToInterface (mkField key Float64Type n s i)
    = Some (Float64V (to_unsigned 64 n))
  ∧ narrows_unsigned 64 n (to_unsigned 64 n)
  ∧ (- 2 ^ 63 ≤ n < 2 ^ 63 → to_signed 64 (to_unsigned 64 n) = n)
  ∧ ToInterface (mkField key Float32Type n s i)
    = Some (Float32V (to_unsigned 32 n))
  ∧ narrows_unsigned 32 n (to_unsigned 32 n)
  ∧ ∀ k, ToInterface (mkField key Float32Type (n + k * 2 ^ 32) s i)
         = ToInterface (mkField key Float32Type n s i).
Proof.
  split; [reflexivity|]. split; [apply to_unsigned_narrows; lia|].
  split; [intros Hn; apply signed_of_unsigned; lia|].
  split; [reflexivity|]. split; [apply to_unsigned_narrows; lia|].
  intros k. unfold ToInterface, to_unsigned. simpl.
  by rewrite Z.mod_add.
Qed.

End NormalizerMore.

(** X10: on the seven zap levels the severity table is strictly increasing
    and starts at Debug, and a level passes the error-report gate exactly
    when its severity is Error or above; any other level value maps to the
    Default severity. *)
Theorem severity_table (lvl : Z) :
  (DebugLevel ≤ lvl ≤ FatalLevel →
     logging_Debug ≤ severityOf lvl
     ∧ (Level_Enabled ErrorLevel lvl = true ↔ logging_Error ≤ severityOf lvl)
     ∧ (lvl < FatalLevel → severityOf lvl < severityOf (lvl + 1)))
  ∧ (lvl < DebugLevel ∨ FatalLevel < lvl → severityOf lvl = logging_Default).
Proof.
  unfold DebugLevel, FatalLevel. split.
  - intros Hl.
    assert (lvl = -1 ∨ lvl = 0 ∨ lvl = 1 ∨ lvl = 2 ∨ lvl = 3 ∨ lvl = 4
            ∨ lvl = 5) as Hcases by lia.
    destruct Hcases as [-> | [-> | [-> | [-> | [-> | [-> | ->]]]]]];
      vm_compute; repeat split; intros; congruence.
  - intros Hl. unfold severityOf, logLevelSeverityGoogle.
    unfold DebugLevel, InfoLevel, WarnLevel, ErrorLevel, DPanicLevel,
      PanicLevel, FatalLevel. simpl.
    rewrite !lookup_insert_ne by lia. by rewrite lookup_empty.
Qed.

(** ** The payload loop *)

Section PayloadFacts.
Context `{Formatter}.

Lemma fillPayload_app (a b : list Field) (p : gmap string any) :
  fillPayload (a ++ b) p = p' ← fillPayload a p; fillPayload b p'.
Proof.
  revert p. induction a as [|f a IH]; intros p; simpl; [done|].
  destruct (ToInterface f) as [v|]; simpl; [apply IH | done].
Qed.

Lemma fillPayload_untouched (fs : list Field) (p p' : gmap string any)
    (k : string) :
  fillPayload fs p = Some p' → (∀ f, In f fs → Key f ≠ k) → p' !! k = p !! k.
Proof.
  revert p. induction fs as [|f fs IH]; intros p Hp Hno; simpl in Hp.
  - by injection Hp as <-.
  - destruct (ToInterface f) as [v|]; simpl in Hp; [|discriminate].
    rewrite (IH _ Hp); [|intros g Hg; apply Hno; by right].
    apply lookup_insert_ne, Hno. by left.
Qed.

Lemma fillPayload_None (fs : list Field) (p : gmap string any) :
  fillPayload fs p = None ↔ ∃ f, In f fs ∧ slot_ok f = false.
Proof.
  revert p. induction fs as [|f fs IH]; intros p; simpl.
  - split; [discriminate | intros (f & [] & _)].
  - destruct (ToInterface f) as [v|] eqn:Hv; simpl.
    + rewrite IH. split.
      * intros (g & Hg & Hs). exists g. split; [by right | done].
      * intros (g & [-> | Hg] & Hs); [|by exists g].
        assert (is_Some (ToInterface g)) as Hsome by by eexists.
        apply ToInterface_is_Some in Hsome. congruence.
    + split; [intros _ | done]. exists f. split; [by left|].
      destruct (slot_ok f) eqn:Hs; [|done].
      apply ToInterface_is_Some in Hs as [v Hv']. congruence.
Qed.

Lemma fillPayload_lookup_last (pre post : list Field) (f : Field)
    (p : gmap string any) :
  fillPayload (pre ++ f :: post) ∅ = Some p →
  (∀ g, In g post → Key g ≠ Key f) → p !! Key f = ToInterface f.
Proof.
  intros Hp Hlast. rewrite fillPayload_app in Hp.
  destruct (fillPayload pre ∅) as [p1|]; simpl in Hp; [|discriminate].
  destruct (ToInterface f) as [v|]; simpl in Hp; [|discriminate].
  rewrite (fillPayload_untouched _ _ _ _ Hp Hlast).
  apply lookup_insert_eq.
Qed.

(** X11: the payload loop panics exactly when some accumulated field has an
    ill-typed slot, and returns a payload exactly when every accumulated
    field's slot is well typed; the payload it returns keeps, under each
    key, the conversion of the last accumulated field with that key, a
    value and never a missing entry, and has no other key. *)
Theorem fillPayload_last_wins (fs : list Field) :
  (fillPayload fs ∅ = None ↔ ∃ f, In f fs ∧ slot_ok f = false)
  ∧ (is_Some (fillPayload fs ∅) ↔ ∀ f, In f fs → slot_ok f = true)
  ∧ ∀ p, fillPayload fs ∅ = Some p →
      (∀ pre f post, fs = pre ++ f :: post →
         (∀ g, In g post → Key g ≠ Key f) →
         p !! Key f = ToInterface f ∧ is_Some (p !! Key f))
      ∧ (∀ k, (∀ f, In f fs → Key f ≠ k) → p !! k = None).
Proof.
  split; [apply fillPayload_None|]. split.
  - split.
    + intros [p Hp] f Hin. destruct (slot_ok f) eqn:Hs; [done|].
      assert (fillPayload fs ∅ = None) as Hnone
        by (apply fillPayload_None; by exists f).
      congruence.
    + intros Hall. destruct (fillPayload fs ∅) as [p|] eqn:Hp; [by eexists|].
      apply fillPayload_None in Hp as (f & Hin & Hs).
      rewrite (Hall f Hin) in Hs. discriminate.
  - intros p Hp. split.
    + intros pre f post -> Hlast.
      assert (p !! Key f = ToInterface f) as Hk
        by by apply (fillPayload_lookup_last pre post).
      split; [done|]. rewrite Hk. apply ToInterface_is_Some.
      destruct (slot_ok f) eqn:Hs; [done|].
      assert (fillPayload (pre ++ f :: post) ∅ = None) as Hnone.
      { apply fillPayload_None. exists f. split; [|done].
        apply in_or_app. right. by left. }
      congruence.
    + intros k Hno. by rewrite (fillPayload_untouched _ _ _ _ Hp Hno).
Qed.

End PayloadFacts.

(** ** The decorating core, continued *)

Section CoreMore.
Context `{ReservedKeys} `{Formatter}.
Context {C L S : Type} `{ZapCore C S} `{RemoteClient L}.


(** X13: the panics of this layer's own code in [Write].  The wrapped
    core's [Write] and the remote client's [Log] are calls into other
    packages, which [ZapCore] and [RemoteClient] take to return; what they
    do with the entry and the fields they are handed, the call's fields
    among them, is theirs.  Granted that, [Write] panics exactly when one of
    the core's two label stores is missing, its logger is nil, or an
    accumulated field has an ill-typed slot: the statements of [Write]
    itself read the keys and texts of the call's fields and assert no type
    on them. *)
Theorem Write_panics_iff (c : core C) (ent : Entry) (fs : list Field)
    (w : world L S) :
  Write c ent fs w = None
  ↔ heap w !! permLabels c = None ∨ heap w !! tempLabels c = None
    ∨ lg c = None ∨ ∃ f, In f (fields c) ∧ slot_ok f = false.
Proof.
  rewrite <- fillPayload_None.
  pose proof (Write_returns_iff c ent fs w) as Hiff.
  split.
  - intros Hnone.
    destruct (heap w !! permLabels c) as [perm|] eqn:Hperm; [|by left].
    destruct (heap w !! tempLabels c) as [temp|] eqn:Htemp; [|by right; left].
    destruct (lg c) as [l|] eqn:Hl; [|by right; right; left].
    destruct (fillPayload (fields c) ∅) as [p|] eqn:Hp;
      [|by right; right; right].
    assert (is_Some (Write c ent fs w)) as [x Hx].
    { apply Hiff. repeat split; by eexists. }
    congruence.
  - intros Hbad. destruct (Write c ent fs w) as [x|] eqn:Hw; [|done].
    destruct (proj1 Hiff (ex_intro _ x eq_refl))
      as ([? ?] & [? ?] & [? ?] & [? ?]).
    destruct Hbad as [? | [? | [? | ?]]]; congruence.
Qed.

(** X14: [Write] changes one label store, the temporary store of its own
    core, and the state of one logger, its own; it creates no store and
    removes none. *)
Theorem Write_frame (c : core C) (ent : Entry) (fs : list Field)
    (w w' : world L S) (err : option string) :
  Write c ent fs w = Some (err, w') →
  (∀ p, p ≠ tempLabels c → heap w' !! p = heap w !! p)
  ∧ dom (heap w') = dom (heap w)
  ∧ ∃ l, lg c = Some l ∧ ∀ q, q ≠ l → loggers w' q = loggers w q.
Proof.
  intros Hw.
  apply Write_inv in Hw
    as (temp0 & p0 & l & all & Ht & Hp & Hl & Hall & Hsink & Hheap & Hlog).
  rewrite Hheap, insert_insert_eq. split; [|split].
  - intros p Hp'. by apply lookup_insert_ne.
  - rewrite dom_insert_L.
    assert (tempLabels c ∈ dom (heap w)) as Hin.
    { apply elem_of_dom. by eexists. }
    apply subseteq_union_1_L. by apply singleton_subseteq_l.
  - exists l. split; [done|]. intros q Hq. rewrite Hlog. unfold set_logger.
    by apply Nat.eqb_neq in Hq as ->.
Qed.

(** X15: what [Write] hands to the wrapped core: the fields of the call that
    are not label fields, in their order, then one labels field carrying the
    very label map that went to the remote client, then at most three
    metadata fields. *)
Theorem Write_sink_fields (c : core C) (ent : Entry) (fs : list Field)
    (w w' : world L S) (err : option string) :
  Write c ent fs w = Some (err, w') →
  ∃ l payload labels app,
    lg c = Some l
    ∧ loggers w' l = lg_Log (loggers w l) (mkGlog ent payload labels)
    ∧ core_Write (Core c) ent
        (List.filter (λ f, negb (isLabelField f)) fs
         ++ labelsField labels :: app)
        (sink w) = (err, sink w')
    ∧ (length app ≤ 3)%nat
    ∧ Forall (λ g, metadataKey (Key g)) app.
Proof.
  intros Hw.
  apply Write_inv in Hw
    as (temp0 & p0 & l & all & Ht & Hp & Hl & Hall & Hsink & Hheap & Hlog).
  destruct (decorate_appends_metadata (config c) ent
              ((extractLabels fs).2 ++ [labelsField all]))
    as (app & Happ & Hlen & Hkeys).
  exists l, (<["message" := StringV (Message ent)]> p0), all, app.
  split; [done|]. split.
  { rewrite Hlog. unfold set_logger. by rewrite Nat.eqb_refl. }
  split; [|done].
  rewrite Happ, <- app_assoc, extractLabels_unfold in Hsink. exact Hsink.
Qed.

Lemma With_inv (c c' : core C) (fs : list Field) (w w' : world L S) :
  With c fs w = Some (c', w') →
  ∃ perm,
    heap w !! permLabels c = Some perm
    ∧ let h1 := <[permLabels c := (extractLabels fs).1 ∪ perm]> (heap w) in
      c' = mkCore (core_With (Core c) (extractLabels fs).2)
                  (fields c ++ (extractLabels fs).2) (lg c)
                  (permLabels c) (fresh (dom h1)) (config c)
      ∧ w' = mkWorld (<[fresh (dom h1) := ∅]> h1) (loggers w) (sink w).
Proof.
  unfold With. destruct (extractLabels fs) as [lbls out].
  destruct (heap w !! permLabels c) as [perm|]; simpl; [|discriminate].
  intros [= <- <-]. exists perm. rewrite copyInto_union. by repeat split.
Qed.

Lemma With_effect (c c' : core C) (fs : list Field) (w w' : world L S) :
  With c fs w = Some (c', w') →
  (tempLabels c' ∉ dom (heap w))
  ∧ tempLabels c' ≠ permLabels c
  ∧ heap w' !! tempLabels c' = Some ∅
  ∧ (∀ p, p ≠ permLabels c → p ≠ tempLabels c' →
       heap w' !! p = heap w !! p)
  ∧ loggers w' = loggers w ∧ sink w' = sink w
  ∧ permLabels c' = permLabels c ∧ lg c' = lg c ∧ config c' = config c
  ∧ fields c' = fields c ++ List.filter (λ f, negb (isLabelField f)) fs
  ∧ Core c' = core_With (Core c) (List.filter (λ f, negb (isLabelField f)) fs).
Proof.
  intros Hwith. apply With_inv in Hwith as (perm & Hperm & -> & ->). simpl.
  set (h1 := <[permLabels c := (extractLabels fs).1 ∪ perm]> (heap w)).
  pose proof (is_fresh (dom h1)) as Hfresh.
  assert (dom h1 = dom (heap w)) as Hdom.
  { subst h1. rewrite dom_insert_L. apply subseteq_union_1_L.
    apply singleton_subseteq_l, elem_of_dom. by eexists. }
  assert (fresh (dom h1) ≠ permLabels c) as Hne.
  { intros Heq. apply Hfresh. rewrite Heq, Hdom. apply elem_of_dom.
    by eexists. }
  rewrite extractLabels_unfold. simpl.
  split; [rewrite <- Hdom; exact Hfresh|]. split; [done|].
  split; [apply lookup_insert_eq|]. split; [|done].
  intros p Hp1 Hp2. rewrite lookup_insert_ne by done.
  subst h1. by rewrite lookup_insert_ne.
Qed.

(** X16: [With] builds the nested core around a new, empty temporary store
    that was not in the heap before, shares the permanent store of its
    parent, and touches no other store; it hands the non-label fields, and
    only those, to the wrapped core and to the accumulated field list, and
    copies logger and configuration. *)
Theorem With_frame (c c' : core C) (fs : list Field) (w w' : world L S) :
  With c fs w = Some (c', w') →
  (tempLabels c' ∉ dom (heap w))
  ∧ tempLabels c' ≠ permLabels c
  ∧ heap w' !! tempLabels c' = Some ∅
  ∧ (∀ p, p ≠ permLabels c → p ≠ tempLabels c' →
       heap w' !! p = heap w !! p)
  ∧ loggers w' = loggers w ∧ sink w' = sink w
  ∧ permLabels c' = permLabels c ∧ lg c' = lg c ∧ config c' = config c
  ∧ fields c' = fields c ++ List.filter (λ f, negb (isLabelField f)) fs
  ∧ Core c' = core_With (Core c) (List.filter (λ f, negb (isLabelField f)) fs).
Proof. apply With_effect. Qed.

(** X17: labels given to [With] go into the store the parent shares: an
    entry the parent core writes afterwards carries them too, under the
    labels of that write and the parent's own temporary labels. *)
Theorem With_labels_reach_parent (c c' : core C) (fs fs2 : list Field)
    (ent : Entry) (w w' w2 : world L S) (err : option string) :
  core_wf c w →
  With c fs w = Some (c', w') →
  Write c ent fs2 w' = Some (err, w2) →
  ∃ l perm temp0 payload,
    lg c = Some l
    ∧ heap w !! permLabels c = Some perm
    ∧ heap w !! tempLabels c = Some temp0
    ∧ loggers w2 l
      = lg_Log (loggers w' l)
          (mkGlog ent payload
             (((extractLabels fs2).1 ∪ temp0)
              ∪ ((extractLabels fs).1 ∪ perm))).
Proof.
  intros (Hne & [perm Hperm] & [temp0 Htemp]) Hwith Hw.
  destruct (With_merges _ _ _ _ _ _ Hperm Hwith) as (_ & Hp & _).
  pose proof (With_effect _ _ _ _ _ Hwith) as (Hnew & _ & _ & Hframe & _).
  assert (tempLabels c ≠ tempLabels c') as Hold.
  { intros Heq. apply Hnew. rewrite <- Heq. apply elem_of_dom. by eexists. }
  destruct (Write_spec _ _ _ _ _ _ Hne Hw)
    as (l & perm' & temp' & p0 & Hl & Hperm' & Ht & _ & Hlog & _).
  rewrite Hp in Hperm'. injection Hperm' as <-.
  rewrite Hframe, Htemp in Ht by congruence. injection Ht as <-.
  exists l, perm, temp0, (<["message" := StringV (Message ent)]> p0).
  by repeat split.
Qed.


Lemma options_keep_core (options : list (core C → core C)) (c : core C) :
  Forall coreOption options →
  fields (fold_left (λ nc option, option nc) options c) = fields c
  ∧ Core (fold_left (λ nc option, option nc) options c) = Core c.
Proof.
  intros Hopts. revert c.
  induction Hopts as [|o options Ho _ IH]; intros c; simpl; [done|].
  destruct (IH (o c)) as [-> ->]. by destruct Ho.
Qed.

Lemma options_without_logger (options : list (core C → core C)) (c : core C) :
  Forall (λ o, ∃ b name, o = ReportAllErrorsOption b ∨ o = ServiceNameOption name)
         options →
  lg (fold_left (λ nc option, option nc) options c) = lg c.
Proof.
  intros Hopts. revert c.
  induction Hopts as [|o options Ho _ IH]; intros c; simpl; [done|].
  rewrite IH. by destruct Ho as (b & name & [-> | ->]).
Qed.

(** X19: the core [WrapCore] builds wraps the given core, has no fields, and
    owns two new, empty label stores, different from each other and from
    every store of the heap, whose stores, loggers and sink are left as they
    were; the package's options change none of that. *)
Theorem WrapCore_fresh (options : list (core C → core C)) (c : C)
    (w : world L S) :
  Forall coreOption options →
  (permLabels (WrapCore options c w).1 ∉ dom (heap w))
  ∧ (tempLabels (WrapCore options c w).1 ∉ dom (heap w))
  ∧ permLabels (WrapCore options c w).1 ≠ tempLabels (WrapCore options c w).1
  ∧ heap (WrapCore options c w).2 !! permLabels (WrapCore options c w).1
    = Some ∅
  ∧ heap (WrapCore options c w).2 !! tempLabels (WrapCore options c w).1
    = Some ∅
  ∧ (∀ p, is_Some (heap w !! p) →
       heap (WrapCore options c w).2 !! p = heap w !! p)
  ∧ fields (WrapCore options c w).1 = []
  ∧ Core (WrapCore options c w).1 = c
  ∧ loggers (WrapCore options c w).2 = loggers w
  ∧ sink (WrapCore options c w).2 = sink w.
Proof.
  intros Hopts.
  destruct (WrapCore_wf options c w Hopts) as ((Hne & _ & _) & Hp & Ht).
  unfold WrapCore in *. simpl in *.
  set (p := fresh (dom (heap w))) in *.
  set (t := fresh (dom (<[p := newLabels]> (heap w)))) in *.
  set (nc := mkCore c [] None p t (mkConfig false "")) in *.
  destruct (options_keep_pointers options nc Hopts) as [Hpp Htt].
  destruct (options_keep_core options nc Hopts) as [Hff Hcc].
  rewrite Hpp, Htt in *. simpl in *.
  assert (p ∉ dom (heap w)) as Hpnew by apply is_fresh.
  assert (t ∉ dom (<[p := newLabels]> (heap w))) as Htnew by apply is_fresh.
  assert (t ∉ dom (heap w)) as Htnew'.
  { intros Hin. apply Htnew. rewrite dom_insert_L. apply elem_of_union.
    by right. }
  repeat split; try done.
  intros q [x Hq].
  assert (q ∈ dom (heap w)) as Hin by (apply elem_of_dom; by eexists).
  rewrite !lookup_insert_ne; [done | congruence | congruence].
Qed.

(** X20: a core wrapped without the [WithLogger] option has a nil logger,
    and every [Write] through it panics. *)
Theorem WrapCore_without_logger_panics (options : list (core C → core C))
    (c : C) (w : world L S) (ent : Entry) (fs : list Field) :
  Forall (λ o, ∃ b name, o = ReportAllErrorsOption b ∨ o = ServiceNameOption name)
         options →
  lg (WrapCore options c w).1 = None
  ∧ Write (WrapCore options c w).1 ent fs (WrapCore options c w).2 = None.
Proof.
  intros Hopts.
  assert (lg (WrapCore options c w).1 = None) as Hlg.
  { unfold WrapCore. simpl. by rewrite options_without_logger. }
  split; [done|].
  destruct (Write _ ent fs _) as [x|] eqn:Hw; [|done].
  destruct (proj1 (Write_returns_iff _ ent fs _) (ex_intro _ x Hw))
    as (_ & _ & [l Hl] & _).
  congruence.
Qed.

End CoreMore.

(** ** Flushing *)

Section SyncFacts.
Context {C S L1 L2 : Type} `{ZapCore C S}.
Context (R1 : RemoteClient L1) (R2 : RemoteClient L2).

(** X21: [Sync] returns what the wrapped core's [Sync] returns, whatever the
    remote flush returned; it leaves the label stores alone, and panics
    exactly when the logger is nil. *)
Theorem Sync_ignores_flush (c : core C) (w1 : world L1 S) (w2 : world L2 S) :
  sink w2 = sink w1 →
  (Sync c w1 = None ↔ lg c = None)
  ∧ ∀ err w1', Sync c w1 = Some (err, w1') →
      core_Sync (Core c) (sink w1) = (err, sink w1')
      ∧ heap w1' = heap w1
      ∧ ∃ w2', Sync c w2 = Some (err, w2') ∧ sink w2' = sink w1'.
Proof.
  intros Hsink. unfold Sync. rewrite Hsink.
  destruct (lg c) as [l|]; simpl; [|by split].
  destruct (lg_Flush (loggers w1 l)) as [e1 l1].
  destruct (lg_Flush (loggers w2 l)) as [e2 l2].
  destruct (core_Sync (Core c) (sink w1)) as [e s1].
  split; [by split|].
  intros err w1' [= <- <-]. simpl. repeat split. by eexists.
Qed.

End SyncFacts.

(** ** The further properties on the scenario *)


(** X14 on the scenario: the permanent store (store 0) is as before the
    write and no store was added. *)
Lemma Write_frame_scenario :
  let c := Sample.scope (mkConfig false "") in
  ∃ err w',
    Sample.write c (Sample.entry InfoLevel "served") Sample.request
                 (Sample.start []) = Some (err, w')
    ∧ heap w' !! 0%nat = Some {[ "env" := "prod" ]}
    ∧ dom (heap w') = dom (heap (Sample.start ([] : list logging_Entry))).
Proof.
  assert (∃ err w',
            Sample.write (Sample.scope (mkConfig false ""))
              (Sample.entry InfoLevel "served") Sample.request
              (Sample.start []) = Some (err, w')) as (err & w' & Hw).
  { eexists _, _. vm_compute. reflexivity. }
  destruct (Write_frame
              (H := Sample.keys) (H0 := Sample.formatter)
              (H1 := Sample.zapCore) (H2 := Sample.queueing)
              (Sample.scope (mkConfig false "")) _ _ _ _ _ Hw)
    as (Hother & Hdom & _).
  exists err, w'. split; [exact Hw|]. split; [|exact Hdom].
  rewrite (Hother 0%nat); [reflexivity | simpl; lia].
Defined.

(** X15 on the scenario: the sink is handed [status], the labels field and
    the metadata, and not [labels.request_id]. *)
Lemma Write_sink_fields_scenario :
  let c := Sample.scope (mkConfig false "") in
  let ent := Sample.entry InfoLevel "served" in
  ∃ err w' labels app,
    Sample.write c ent Sample.request (Sample.start []) = Some (err, w')
    ∧ core_Write (ZapCore := Sample.zapCore) (Core c) ent
        (Sample.int "status" 200 :: @labelsField Sample.keys labels :: app)
        [] = (err, sink w')
    ∧ (length app ≤ 3)%nat.
Proof.
  assert (∃ err w',
            Sample.write (Sample.scope (mkConfig false ""))
              (Sample.entry InfoLevel "served") Sample.request
              (Sample.start []) = Some (err, w')) as (err & w' & Hw).
  { eexists _, _. vm_compute. reflexivity. }
  destruct (Write_sink_fields
              (H := Sample.keys) (H0 := Sample.formatter)
              (H1 := Sample.zapCore) (H2 := Sample.queueing)
              (Sample.scope (mkConfig false "")) _ _ _ _ _ Hw)
    as (l & payload & labels & app & _ & _ & Hsink & Hlen & _).
  exists err, w', labels, app. split; [exact Hw|].
  split; [exact Hsink | exact Hlen].
Defined.

(** X16 on the scenario: nesting with [labels.team] and [shard] gives a core
    with a new empty temporary store and the fields [user], [shard]. *)
Lemma With_frame_scenario :
  ∃ c' w',
    Sample.with_ (Sample.scope (mkConfig false "")) Sample.nested
                 (Sample.start ([] : list logging_Entry)) = Some (c', w')
    ∧ heap w' !! tempLabels c' = Some ∅
    ∧ fields c' = [Sample.str "user" "x"; Sample.int "shard" 7].
Proof.
  assert (∃ c' w',
            Sample.with_ (Sample.scope (mkConfig false "")) Sample.nested
              (Sample.start ([] : list logging_Entry)) = Some (c', w'))
    as (c' & w' & Hwith).
  { eexists _, _. vm_compute. reflexivity. }
  destruct (With_frame (H1 := Sample.zapCore) _ _ _ _ _ Hwith)
    as (_ & _ & Hempty & _ & _ & _ & _ & _ & _ & Hfields & _).
  exists c', w'. split; [exact Hwith|]. split; [exact Hempty | exact Hfields].
Defined.

Lemma Sample_scope_wf (cfg : driverConfig) (L : Type) (l : L) :
  core_wf (Sample.scope cfg) (Sample.start l).
Proof.
  split; [simpl; lia|]. split; vm_compute; by eexists.
Defined.

(** X17 on the scenario: after nesting with [labels.team], an entry written
    through the outer scope carries [team] as well. *)
Lemma With_labels_reach_parent_scenario :
  let c := Sample.scope (mkConfig false "") in
  let ent := Sample.entry InfoLevel "served" in
  ∃ c' w' err w2 payload,
    Sample.with_ c Sample.nested (Sample.start []) = Some (c', w')
    ∧ Sample.write c ent Sample.request w' = Some (err, w2)
    ∧ loggers w2 0%nat
      = loggers w' 0%nat
        ++ [mkGlog ent payload
              {[ "env" := "prod"; "request_id" := "42"; "team" := "core" ]}].
Proof.
  assert (∃ c' w',
            Sample.with_ (Sample.scope (mkConfig false "")) Sample.nested
              (Sample.start []) = Some (c', w')
            ∧ ∃ err w2,
                Sample.write (Sample.scope (mkConfig false ""))
                  (Sample.entry InfoLevel "served") Sample.request w'
                = Some (err, w2))
    as (c' & w' & Hwith & err & w2 & Hw).
  { eexists _, _. split; [vm_compute; reflexivity|].
    eexists _, _. vm_compute. reflexivity. }
  destruct (With_labels_reach_parent
              (H := Sample.keys) (H0 := Sample.formatter)
              (H1 := Sample.zapCore) (H2 := Sample.queueing)
              _ _ _ _ _ _ _ _ _
              (Sample_scope_wf (mkConfig false "") _ []) Hwith Hw)
    as (l & perm & temp0 & payload & Hl & Hperm & Ht & Hlog).
  injection Hl as <-. injection Hperm as <-. injection Ht as <-.
  exists c', w', err, w2, payload.
  split; [exact Hwith|]. split; [exact Hw | exact Hlog].
Defined.


(** X19 on a program's options: the wrapped core has no fields and two
    different stores. *)
Lemma WrapCore_fresh_scenario :
  let r := Sample.wrapCore Sample.options [] (Sample.start []) in
  fields r.1 = [] ∧ permLabels r.1 ≠ tempLabels r.1
  ∧ heap r.2 !! 0%nat = Some {[ "env" := "prod" ]}.
Proof.
  assert (Forall coreOption Sample.options) as Hopts.
  { repeat (apply List.Forall_cons; [constructor|]). apply List.Forall_nil. }
  destruct (WrapCore_fresh Sample.options []
              (Sample.start ([] : list logging_Entry)) Hopts)
    as (_ & _ & Hne & _ & _ & Hold & Hfields & _).
  split; [exact Hfields|]. split; [exact Hne|].
  unfold Sample.wrapCore. rewrite Hold; [reflexivity|].
  vm_compute. by eexists.
Defined.

(** X20 on options that set no logger. *)
Lemma WrapCore_without_logger_panics_scenario :
  Sample.write
    (Sample.wrapCore [ReportAllErrorsOption true; ServiceNameOption "api"]
                     [] (Sample.start [])).1
    (Sample.entry InfoLevel "served") Sample.request
    (Sample.wrapCore [ReportAllErrorsOption true; ServiceNameOption "api"]
                     [] (Sample.start [])).2
  = None.
Proof.
  apply (WrapCore_without_logger_panics
           (H := Sample.keys) (H0 := Sample.formatter)
           (H1 := Sample.zapCore) (H2 := Sample.queueing)).
  apply List.Forall_cons; [exists true, ""; by left|].
  apply List.Forall_cons; [exists true, "api"; by right|].
  apply List.Forall_nil.
Defined.

(** X21 on the scenario: the dropping client's flush fails, the sink's
    [Sync] succeeds, and [Sync] returns no error with either client. *)
Lemma Sync_ignores_flush_scenario :
  let c := Sample.scope (mkConfig false "") in
  ∃ w1 w2,
    Sample.sync c (Sample.start []) = Some (None, w1)
    ∧ Sample.sync_dropping c (Sample.start 0%nat) = Some (None, w2)
    ∧ sink w2 = sink w1.
Proof.
  assert (∃ w1, Sample.sync (Sample.scope (mkConfig false ""))
                  (Sample.start []) = Some (None, w1)) as (w1 & Hs).
  { eexists. vm_compute. reflexivity. }
  destruct (Sync_ignores_flush (H := Sample.zapCore)
              Sample.queueing Sample.dropping
              (Sample.scope (mkConfig false ""))
              (Sample.start []) (Sample.start 0%nat) eq_refl)
    as (_ & Hall).
  destruct (Hall None w1 Hs) as (_ & _ & w2 & Hs2 & Hsink).
  exists w1, w2. split; [exact Hs|]. split; [exact Hs2 | exact Hsink].
Defined.
